(** * graphql-to-diagram: the force-directed layout of [main.go]

    A shallow embedding of the layout engine ([calculateLayout]), of the
    draw.io renderer that calls it ([generateDrawIOXML]), of the schema
    walk that builds the diagram ([processSchema]) and of the mermaid
    printer ([outputDiagram]).

    Numbers.  Go's [float64] is IEEE 754 binary64, and so is Rocq's
    primitive [float]: [+ - * /] and [sqrt] round to nearest-even in both.
    The embedding evaluates every operation on its own, as the gc compiler
    does on amd64 (no fused multiply-add).

    Memory.  [Diagram.Classes] is a [[]*ClassNode]: the layout writes the
    positions through these pointers, and compares nodes by pointer.  Class
    nodes therefore live in a heap, a list of cells indexed by address; a
    pointer is [Some a] or [None] (Go's nil), and reading through nil or
    through an address outside the heap is a run-time panic, [None] in the
    option monad.  Scalar and directive nodes are held by pointer too, but
    no statement of the program writes through those pointers and
    [processSchema] stores only fresh, non-nil ones: they are embedded as
    values.

    Randomness.  [rand.Float64()] reads the process-wide source of
    [math/rand]; it is embedded as a sequence of draws and a cursor.

    Names.  Functions, types and constants keep the names of [main.go].
    Record fields share one name space here, so the fields that several
    structs of the source have in common carry the struct in their name
    ([Name] of a class node, [scalarName], [directiveName], [cPosition],
    [scalarPosition], ...). *)

From Stdlib Require Import Floats ZArith.
From stdpp Require Import base option list strings pretty.

Local Open Scope string_scope.
Local Open Scope list_scope.
Local Open Scope nat_scope.

(** ** Data model *)

Record Position := mkPosition { X : float; Y : float }.

Record Field := mkField {
  fieldName : string;
  fieldType : string;
  fieldIsRequired : bool }.

Record ClassNode := mkClassNode {
  ID : string;
  Name : string;
  Fields : list Field;
  cPosition : Position;
  Width : float;
  Height : float }.

Record ScalarNode := mkScalarNode {
  scalarName : string;
  scalarDescription : string;
  scalarPosition : Position }.

Record Relation := mkRelation {
  From : string;
  To : string;
  relType : string;
  EdgeType : string }.

Record ArgumentNode := mkArgumentNode {
  argName : string;
  argType : string;
  argIsRequired : bool;
  DefaultValue : string }.

Record DirectiveNode := mkDirectiveNode {
  directiveName : string;
  directiveDescription : string;
  Arguments : list ArgumentNode;
  Locations : list string;
  directivePosition : Position }.

(** [type DiagramFormat int], with [Mermaid = iota] and [DrawIO]. *)
Definition DiagramFormat := Z.
Definition Mermaid : DiagramFormat := 0%Z.
Definition DrawIO : DiagramFormat := 1%Z.

(** A [*ClassNode]: [None] is nil, [Some a] the cell at address [a]. *)
Abbreviation ptr := (option nat).

Abbreviation Heap := (list ClassNode).

Record Diagram := mkDiagram {
  Classes : list ptr;
  Relations : list Relation;
  Scalars : list ScalarNode;
  Directives : list DirectiveNode;
  format : DiagramFormat;
  maxWidth : float;
  maxHeight : float }.

(** The process-wide random source: [draws] is the sequence it will
    produce, [cursor] the number of draws already taken. *)
Record Rand := mkRand { draws : nat → float; cursor : nat }.

(** What a function of the program can read and write: the diagram behind
    [d *Diagram], the class nodes and the random source. *)
Record World := mkWorld { diagram : Diagram; heap : Heap; rand : Rand }.

(** ** Constants *)

Definition ClassWidth : float := 200%float.
Definition ClassHeaderHeight : float := 30%float.
Definition FieldHeight : float := 20%float.
Definition ScalarWidth : float := 80%float.
Definition ScalarHeight : float := 80%float.
Definition DirectiveWidth : float := 160%float.
Definition DirectiveHeight : float := 90%float.

(** The literal [0.1] of the source: the binary64 value nearest to 1/10. *)
Definition minDist : float := 0x1.999999999999ap-4%float.

(** The zero value of [Position]. *)
Definition zeroPosition : Position := mkPosition 0%float 0%float.

(** ** Library functions of Go *)

(** [math.Max]: +Inf wins, then NaN, then the sign of zero, then [>]. *)
Definition Max (x y : float) : float :=
  if (PrimFloat.eqb x infinity || PrimFloat.eqb y infinity)%bool then infinity
  else if (is_nan x || is_nan y)%bool then nan
  else if (PrimFloat.eqb x 0 && PrimFloat.eqb x y)%bool then
    (if get_sign x then y else x)
  else if PrimFloat.ltb y x then x else y.

(** [math.Sqrt] is the IEEE square root. *)
Definition Sqrt (x : float) : float := PrimFloat.sqrt x.

(** [float64(n)] for a length [n]. *)
Definition float64 (n : nat) : float :=
  PrimFloat.of_uint63 (Uint63.of_Z (Z.of_nat n)).

(** [rand.Float64()]: the next draw, and the source moved past it. *)
Definition Float64 (r : Rand) : float * Rand :=
  (draws r (cursor r), mkRand (draws r) (S (cursor r))).

(** ** Heap access *)

(** Reading [*p]: nil and addresses outside the heap panic. *)
Definition deref (h : Heap) (p : ptr) : option ClassNode :=
  a ← p; h !! a.

Definition setPosition (n : ClassNode) (p : Position) : ClassNode :=
  mkClassNode (ID n) (Name n) (Fields n) p (Width n) (Height n).

(** Writing [p.Position = pos], for a [p] that was read before. *)
Definition writePosition (h : Heap) (p : ptr) (pos : Position) : option Heap :=
  a ← p; n ← h !! a; Some (<[a := setPosition n pos]> h).

(** [&ClassNode{...}]: a fresh cell at the end of the heap. *)
Definition alloc (n : ClassNode) (h : Heap) : ptr * Heap :=
  (Some (length h), h ++ [n]).

(** ** Loops *)

(** [for _, a := range l { body }] over a state that may panic. *)
Fixpoint forEach {A S : Type} (body : A → S → option S) (l : list A) (s : S)
  : option S :=
  match l with
  | [] => Some s
  | a :: l' => s' ← body a s; forEach body l' s'
  end.

(** [for i := 0; i < n; i++ { body }]. *)
Fixpoint repeatN {S : Type} (n : nat) (body : S → option S) (s : S) : option S :=
  match n with
  | O => Some s
  | Datatypes.S n' => s' ← body s; repeatN n' body s'
  end.

(** ** calculateLayout *)

Section Layout.
Local Open Scope float_scope.

(** Lines 162-170: one scalar becomes a fresh node at a random place. *)
Definition addScalar (d : Diagram) (scalar : ScalarNode)
    (st : list ptr * Heap * Rand) : list ptr * Heap * Rand :=
  let '(allNodes, h, r) := st in
  let '(rx, r1) := Float64 r in
  let '(ry, r2) := Float64 r1 in
  let '(p, h') := alloc (mkClassNode
      ("scalar_" +:+ scalarName scalar)
      (scalarName scalar)
      []
      (mkPosition (rx * maxWidth d) (ry * maxHeight d))
      ScalarWidth
      ScalarHeight) h in
  (allNodes ++ [p], h', r2).

(** Lines 172-181: one directive becomes a fresh node at a random place. *)
Definition addDirective (d : Diagram) (directive : DirectiveNode)
    (st : list ptr * Heap * Rand) : list ptr * Heap * Rand :=
  let '(allNodes, h, r) := st in
  let height := DirectiveHeight + float64 (length (Arguments directive)) * FieldHeight in
  let '(rx, r1) := Float64 r in
  let '(ry, r2) := Float64 r1 in
  let '(p, h') := alloc (mkClassNode
      ("directive_" +:+ directiveName directive)
      ("@" +:+ directiveName directive)
      []
      (mkPosition (rx * maxWidth d) (ry * maxHeight d))
      DirectiveWidth
      height) h in
  (allNodes ++ [p], h', r2).

(** Lines 159-181: the working node set, the class pointers first. *)
Definition buildAllNodes (d : Diagram) (h : Heap) (r : Rand)
  : list ptr * Heap * Rand :=
  let st0 := (Classes d, h, r) in
  let st1 := fold_left (λ st scalar, addScalar d scalar st) (Scalars d) st0 in
  fold_left (λ st directive, addDirective d directive st) (Directives d) st1.

(** Lines 186-193: the body of the two repulsion loops, for [v] and [u]. *)
Definition repel (k : float) (v u : ptr) (h : Heap) : option Heap :=
  if decide (v = u) then Some h
  else
    nv ← deref h v;
    nu ← deref h u;
    let dx := X (cPosition nv) - X (cPosition nu) in
    let dy := Y (cPosition nv) - Y (cPosition nu) in
    let dist := Max minDist (Sqrt (dx * dx + dy * dy)) in
    let force := (k * k) / dist in
    writePosition h v
      (mkPosition (X (cPosition nv) + (dx / dist) * force)
                  (Y (cPosition nv) + (dy / dist) * force)).

(** Lines 184-195. *)
Definition repulsionPass (k : float) (allNodes : list ptr) (h : Heap)
  : option Heap :=
  forEach (λ v, forEach (λ u, repel k v u) allNodes) allNodes h.

(** Lines 198-206: the last node named [rel.From], the last named [rel.To]. *)
Definition findEnd (h : Heap) (rel : Relation) (node : ptr)
    (ft : ptr * ptr) : option (ptr * ptr) :=
  n ← deref h node;
  let from := if String.eqb (Name n) (From rel) then node else fst ft in
  let to := if String.eqb (Name n) (To rel) then node else snd ft in
  Some (from, to).

Definition findEnds (h : Heap) (rel : Relation) (allNodes : list ptr)
  : option (ptr * ptr) :=
  forEach (findEnd h rel) allNodes (None, None).

(** Lines 207-218: the pull along a relation whose two ends were found. *)
Definition pull (k : float) (from to : ptr) (h : Heap) : option Heap :=
  nf ← deref h from;
  nt ← deref h to;
  let dx := X (cPosition nf) - X (cPosition nt) in
  let dy := Y (cPosition nf) - Y (cPosition nt) in
  let dist := Max minDist (Sqrt (dx * dx + dy * dy)) in
  let force := (dist * dist) / k in
  let dx := (dx / dist) * force in
  let dy := (dy / dist) * force in
  h1 ← writePosition h from
          (mkPosition (X (cPosition nf) - dx) (Y (cPosition nf) - dy));
  nt' ← deref h1 to;
  writePosition h1 to
    (mkPosition (X (cPosition nt') + dx) (Y (cPosition nt') + dy)).

(** Lines 197-219: the body of the relation loop. *)
Definition attract (k : float) (allNodes : list ptr) (rel : Relation)
    (h : Heap) : option Heap :=
  ft ← findEnds h rel allNodes;
  match ft with
  | (Some f, Some t) => pull k (Some f) (Some t) h
  | _ => Some h
  end.

Definition attractionPass (k : float) (allNodes : list ptr)
    (rels : list Relation) (h : Heap) : option Heap :=
  forEach (attract k allNodes) rels h.

(** Lines 183-220: one iteration. *)
Definition iteration (k : float) (allNodes : list ptr) (rels : list Relation)
    (h : Heap) : option Heap :=
  h1 ← repulsionPass k allNodes h;
  attractionPass k allNodes rels h1.

Definition iterations : nat := 100.

(** Line 157. *)
Definition idealLength (d : Diagram) : float :=
  let totalNodes := (length (Classes d) + length (Scalars d) + length (Directives d))%nat in
  Sqrt (maxWidth d * maxHeight d / float64 totalNodes).

Definition calculateLayout (w : World) : option World :=
  let d := diagram w in
  let k := idealLength d in
  let '(allNodes, h0, r) := buildAllNodes d (heap w) (rand w) in
  h ← repeatN iterations (iteration k allNodes (Relations d)) h0;
  Some (mkWorld d h r).

End Layout.

(** ** generateDrawIOXML *)

Definition ClassStyle : string :=
  "swimlane;fontStyle=1;align=center;verticalAlign=top;childLayout=stackLayout;horizontal=1;startSize=30;horizontalStack=0;resizeParent=1;resizeParentMax=0;resizeLast=0;collapsible=1;marginBottom=0;".
Definition FieldStyle : string :=
  "text;strokeColor=none;fillColor=none;align=left;verticalAlign=top;spacingLeft=4;spacingRight=4;overflow=hidden;rotatable=0;points=[[0,0.5],[1,0.5]];portConstraint=eastwest;".
Definition EdgeStyle : string :=
  "edgeStyle=orthogonalEdgeStyle;rounded=1;orthogonalLoop=1;jettySize=auto;html=1;".
Definition ScalarStyle : string :=
  "ellipse;whiteSpace=wrap;html=1;aspect=fixed;fillColor=#f5f5f5;".
Definition DirectiveStyle : string :=
  "shape=hexagon;perimeter=hexagonPerimeter2;whiteSpace=wrap;html=1;fixedSize=1;fillColor=#fff2cc;strokeColor=#d6b656;".
Definition ArgumentStyle : string :=
  "text;strokeColor=none;fillColor=none;align=left;verticalAlign=top;spacingLeft=4;spacingRight=4;overflow=hidden;rotatable=0;points=[[0,0.5],[1,0.5]];portConstraint=eastwest;".

Record MxGeometry := mkMxGeometry {
  geoX : float;
  geoY : float;
  geoWidth : float;
  geoHeight : float;
  Relative : string }.

Record MxCell := mkMxCell {
  cellID : string;
  Value : string;
  Style : string;
  Parent : string;
  Vertex : string;
  Edge : string;
  Source : string;
  Target : string;
  Geometry : option MxGeometry }.

Record MxRoot := mkMxRoot { Cells : list MxCell }.
Record MxGraphModel := mkMxGraphModel { Root : MxRoot }.
Record MxDiagram := mkMxDiagram { mxName : string; Model : MxGraphModel }.
Record MxFile := mkMxFile { fileDiagram : MxDiagram }.

(** The line feed of Go's string literals. *)
Definition nl : string := String (Ascii.ascii_of_nat 10) "".

(** The double quote of [formatDefaultValue]. *)
Definition dquote : string := String (Ascii.ascii_of_nat 34) "".

(** [strings.Join]. *)
Fixpoint Join (elems : list string) (sep : string) : string :=
  match elems with
  | [] => ""
  | [e] => e
  | e :: rest => e +:+ sep +:+ Join rest sep
  end.

(** The verb [%d] of [fmt], for a loop index. *)
Definition fmtInt (i : nat) : string := pretty i.

Section DrawIO.
Local Open Scope float_scope.

(** Lines 258-278: the cells of the fields of one class. *)
Definition fieldCell (class : ClassNode) (i : nat) (field : Field) : MxCell :=
  let fieldValue := fieldName field +:+ ": " +:+ fieldType field in
  let fieldValue := if fieldIsRequired field then fieldValue +:+ "!" else fieldValue in
  mkMxCell (ID class +:+ "_f" +:+ fmtInt i) fieldValue FieldStyle (ID class) "1" "" "" ""
    (Some (mkMxGeometry 0 (ClassHeaderHeight + float64 i * FieldHeight)
             ClassWidth FieldHeight "")).

(** Lines 240-279: the cell of one class, then those of its fields. *)
Definition classCells (h : Heap) (p : ptr) (cells : list MxCell)
  : option (list MxCell) :=
  class ← deref h p;
  let height := ClassHeaderHeight + (float64 (length (Fields class)) * FieldHeight) in
  let classCell :=
    mkMxCell (ID class) (Name class) ClassStyle "1" "1" "" "" ""
      (Some (mkMxGeometry (X (cPosition class)) (Y (cPosition class))
               ClassWidth height "")) in
  Some (cells ++ [classCell] ++ imap (fieldCell class) (Fields class)).

(** Lines 281-294. *)
Definition edgeCell (i : nat) (rel : Relation) : MxCell :=
  mkMxCell ("e" +:+ fmtInt i) "" EdgeStyle "1" "" "1" (From rel) (To rel)
    (Some (mkMxGeometry 0 0 0 0 "1")).

(** Lines 296-305: a scalar joins [d.Classes] as a node at the origin. *)
Definition scalarAsClass (scalar : ScalarNode) (st : list ptr * Heap)
  : list ptr * Heap :=
  let '(classes, h) := st in
  let '(p, h') := alloc (mkClassNode
      ("scalar_" +:+ scalarName scalar)
      (scalarName scalar)
      []
      zeroPosition
      ScalarWidth
      ScalarHeight) h in
  (classes ++ [p], h').

(** Lines 309-324. *)
Definition scalarCell (scalar : ScalarNode) : MxCell :=
  mkMxCell ("scalar_" +:+ scalarName scalar) (scalarName scalar) ScalarStyle
    "1" "1" "" "" ""
    (Some (mkMxGeometry (X (scalarPosition scalar)) (Y (scalarPosition scalar))
             ScalarWidth ScalarHeight "")).

(** Lines 326-335: a directive joins [d.Classes] as a node at the origin. *)
Definition directiveAsClass (directive : DirectiveNode) (st : list ptr * Heap)
  : list ptr * Heap :=
  let '(classes, h) := st in
  let '(p, h') := alloc (mkClassNode
      ("directive_" +:+ directiveName directive)
      ("@" +:+ directiveName directive)
      []
      zeroPosition
      DirectiveWidth
      (DirectiveHeight + float64 (length (Arguments directive)) * FieldHeight)) h in
  (classes ++ [p], h').

(** Lines 355-375. *)
Definition argCell (directive : DirectiveNode) (i : nat) (arg : ArgumentNode)
  : MxCell :=
  let argValue := argName arg +:+ ": " +:+ argType arg in
  let argValue :=
    if String.eqb (DefaultValue arg) "" then argValue
    else argValue +:+ " = " +:+ DefaultValue arg in
  mkMxCell ("directive_" +:+ directiveName directive +:+ "_arg" +:+ fmtInt i)
    argValue ArgumentStyle ("directive_" +:+ directiveName directive) "1" "" "" ""
    (Some (mkMxGeometry 0 (DirectiveHeight + float64 i * FieldHeight)
             DirectiveWidth FieldHeight "")).

(** Lines 339-376. *)
Definition directiveCells (directive : DirectiveNode) : list MxCell :=
  mkMxCell ("directive_" +:+ directiveName directive)
    ("@" +:+ directiveName directive +:+ nl +:+ "on " +:+
       Join (Locations directive) ", ")
    DirectiveStyle "1" "1" "" "" ""
    (Some (mkMxGeometry (X (directivePosition directive))
             (Y (directivePosition directive))
             DirectiveWidth
             (DirectiveHeight + float64 (length (Arguments directive)) * FieldHeight)
             ""))
  :: imap (argCell directive) (Arguments directive).

Definition withClasses (d : Diagram) (classes : list ptr) : Diagram :=
  mkDiagram classes (Relations d) (Scalars d) (Directives d) (format d)
    (maxWidth d) (maxHeight d).

(** The value handed to [xml.MarshalIndent], and the world left behind. *)
Definition generateDrawIOXML (w : World) : option (MxFile * World) :=
  w1 ← calculateLayout w;
  let d := diagram w1 in
  let cells0 :=
    [ mkMxCell "0" "" "" "" "" "" "" "" None;
      mkMxCell "1" "" "" "0" "" "" "" "" None ] in
  cells1 ← forEach (classCells (heap w1)) (Classes d) cells0;
  let cells2 := cells1 ++ imap edgeCell (Relations d) in
  let '(classes, h) :=
    fold_left (λ st scalar, scalarAsClass scalar st) (Scalars d)
      (Classes d, heap w1) in
  w2 ← calculateLayout (mkWorld (withClasses d classes) h (rand w1));
  let d := diagram w2 in
  let cells3 := cells2 ++ map scalarCell (Scalars d) in
  let '(classes, h) :=
    fold_left (λ st directive, directiveAsClass directive st) (Directives d)
      (Classes d, heap w2) in
  w3 ← calculateLayout (mkWorld (withClasses d classes) h (rand w2));
  let d := diagram w3 in
  let cells4 := cells3 ++ concat (map directiveCells (Directives d)) in
  Some (mkMxFile (mkMxDiagram "GraphQL Schema"
                    (mkMxGraphModel (mkMxRoot cells4))), w3).

End DrawIO.

(** ** The parsed schema

    The document comes from [github.com/graphql-go/graphql/language]; only
    the parts [processSchema] reads are kept.  A [*ast.StringValue] or an
    [ast.Value] that may be nil is an [option]. *)

Module ast.

Inductive Type_ :=
| Named (name : string)
| List (t : Type_)
| NonNull (t : Type_)
| NoType.

Inductive Value :=
| StringValue (v : string)
| IntValue (v : string)
| FloatValue (v : string)
| BooleanValue (v : bool)
| EnumValue (v : string)
| OtherValue.

Record FieldDefinition := mkFieldDefinition {
  fdName : string;
  fdType : Type_ }.

Record InputValueDefinition := mkInputValueDefinition {
  ivName : string;
  ivType : Type_;
  ivDefaultValue : option Value }.

Inductive Node :=
| ObjectDefinition (name : string) (fields : list FieldDefinition)
| ScalarDefinition (name : string) (description : option string)
| DirectiveDefinition (name : string) (description : option string)
    (arguments : list InputValueDefinition) (locations : list string)
| InputObjectDefinition (name : string) (fields : list InputValueDefinition)
| OtherDefinition.

Record Document := mkDocument { Definitions : list Node }.

End ast.

Definition isNonNullType (t : ast.Type_) : bool :=
  match t with ast.NonNull _ => true | _ => false end.

Fixpoint getTypeString (t : ast.Type_) : string :=
  match t with
  | ast.NonNull t' => getTypeString t' +:+ "!"
  | ast.List t' => "[" +:+ getTypeString t' +:+ "]"
  | ast.Named name => name
  | ast.NoType => "unknown"
  end.

Fixpoint getBaseType (t : ast.Type_) : string :=
  match t with
  | ast.NonNull t' => getBaseType t'
  | ast.List t' => getBaseType t'
  | ast.Named name => name
  | ast.NoType => "unknown"
  end.

Definition isInputType (t : ast.Type_) (doc : ast.Document) : bool :=
  let baseType := getBaseType t in
  existsb (λ def,
    match def with
    | ast.InputObjectDefinition name _ => String.eqb name baseType
    | _ => false
    end) (ast.Definitions doc).

(** The test on the five built-in scalars that [isObjectType] and
    [isCustomScalar] both spell out. *)
Definition isBuiltin (baseType : string) : bool :=
  String.eqb baseType "String" || String.eqb baseType "Int" ||
  String.eqb baseType "Float" || String.eqb baseType "Boolean" ||
  String.eqb baseType "ID".

Definition isObjectType (t : ast.Type_) (doc : ast.Document) : bool :=
  let baseType := getBaseType t in
  negb (isBuiltin baseType) && negb (isInputType t doc).

Definition isCustomScalar (t : ast.Type_) (doc : ast.Document) : bool :=
  let baseType := getBaseType t in
  if isBuiltin baseType then false
  else
    existsb (λ def,
      match def with
      | ast.ScalarDefinition name _ => String.eqb name baseType
      | _ => false
      end) (ast.Definitions doc).

Definition getDescription (desc : option string) : string :=
  match desc with
  | Some v => v
  | None => ""
  end.

Definition formatDefaultValue (value : ast.Value) : string :=
  match value with
  | ast.StringValue v => dquote +:+ v +:+ dquote
  | ast.IntValue v => v
  | ast.FloatValue v => v
  | ast.BooleanValue v => if v then "true" else "false"
  | ast.EnumValue v => v
  | ast.OtherValue => ""
  end.

(** ** processSchema *)

Definition withLists (d : Diagram) (classes : list ptr) (rels : list Relation)
    (scalars : list ScalarNode) (directives : list DirectiveNode) : Diagram :=
  mkDiagram classes rels scalars directives (format d) (maxWidth d) (maxHeight d).

(** Lines 396-402. *)
Definition classField (field : ast.FieldDefinition) : Field :=
  mkField (ast.fdName field) (getTypeString (ast.fdType field))
    (isNonNullType (ast.fdType field)).

(** Lines 406-414: the relations of an object type, one per field whose
    type is an object or an input. *)
Definition fieldRelations (doc : ast.Document) (name : string)
    (fields : list ast.FieldDefinition) : list Relation :=
  omap (λ field,
    if isObjectType (ast.fdType field) doc || isInputType (ast.fdType field) doc
    then Some (mkRelation name (getBaseType (ast.fdType field)) "uses" "")
    else None) fields.

(** Lines 432-443. *)
Definition directiveArgument (arg : ast.InputValueDefinition) : ArgumentNode :=
  mkArgumentNode (ast.ivName arg) (getTypeString (ast.ivType arg))
    (isNonNullType (ast.ivType arg))
    (match ast.ivDefaultValue arg with
     | Some v => formatDefaultValue v
     | None => ""
     end).

(** Lines 445-453. *)
Definition argumentRelations (doc : ast.Document) (name : string)
    (arguments : list ast.InputValueDefinition) : list Relation :=
  omap (λ arg,
    if isObjectType (ast.ivType arg) doc || isInputType (ast.ivType arg) doc
       || isCustomScalar (ast.ivType arg) doc
    then Some (mkRelation ("@" +:+ name) (getBaseType (ast.ivType arg))
                 "uses" "directive")
    else None) arguments.

(** The body of the loop over [doc.Definitions]. *)
Definition processDefinition (doc : ast.Document) (w : World) (def : ast.Node)
  : World :=
  let d := diagram w in
  match def with
  | ast.ObjectDefinition name fields =>
      let '(class, h) :=
        alloc (mkClassNode ("c" +:+ name) name (map classField fields)
                 zeroPosition 0%float 0%float) (heap w) in
      mkWorld
        (withLists d (Classes d ++ [class])
           (Relations d ++ fieldRelations doc name fields)
           (Scalars d) (Directives d))
        h (rand w)
  | ast.ScalarDefinition name description =>
      mkWorld
        (withLists d (Classes d) (Relations d)
           (Scalars d ++ [mkScalarNode name (getDescription description) zeroPosition])
           (Directives d))
        (heap w) (rand w)
  | ast.DirectiveDefinition name description arguments locations =>
      mkWorld
        (withLists d (Classes d)
           (Relations d ++ argumentRelations doc name arguments)
           (Scalars d)
           (Directives d ++
              [mkDirectiveNode name (getDescription description)
                 (map directiveArgument arguments) locations zeroPosition]))
        (heap w) (rand w)
  | _ => w
  end.

Definition processSchema (doc : ast.Document) (w : World) : World :=
  fold_left (processDefinition doc) (ast.Definitions doc) w.

(** ** outputDiagram *)

(** What reaches standard output: the text of the mermaid branch, or the
    marshalled draw.io file. *)
Inductive Output :=
| Text (s : string)
| Xml (f : MxFile).

(** Lines 469-479. *)
Definition mermaidArgument (arg : ArgumentNode) : string :=
  let defaultValue :=
    if String.eqb (DefaultValue arg) "" then ""
    else " = " +:+ DefaultValue arg in
  "    +" +:+ argName arg +:+ ": " +:+ argType arg +:+ defaultValue +:+ nl.

Definition mermaidDirective (directive : DirectiveNode) : string :=
  "class " +:+ directiveName directive +:+ " {" +:+ nl +:+ "    <<directive>>" +:+ nl
  +:+ String.concat "" (map mermaidArgument (Arguments directive))
  +:+ "    +on " +:+ Join (Locations directive) ", " +:+ nl +:+ "}" +:+ nl.

(** Lines 481-483. *)
Definition mermaidScalar (scalar : ScalarNode) : string :=
  "class " +:+ scalarName scalar +:+ " {" +:+ nl +:+ "    <<scalar>>" +:+ nl
  +:+ "}" +:+ nl.

(** Lines 484-490. *)
Definition mermaidField (field : Field) : string :=
  "    +" +:+ fieldName field +:+ " " +:+ fieldType field +:+ nl.

Definition mermaidClass (h : Heap) (p : ptr) (out : string) : option string :=
  class ← deref h p;
  Some (out +:+ "class " +:+ Name class +:+ " {" +:+ nl
        +:+ String.concat "" (map mermaidField (Fields class))
        +:+ "}" +:+ nl).

(** Lines 492-498. *)
Definition mermaidRelation (relation : Relation) : string :=
  let style := if String.eqb (EdgeType relation) "directive" then "..>" else "-->" in
  From relation +:+ " " +:+ style +:+ " " +:+ To relation +:+ " : "
  +:+ relType relation +:+ nl.

Definition outputDiagram (w : World) : option (Output * World) :=
  let d := diagram w in
  if decide (format d = DrawIO) then
    '(output, w') ← generateDrawIOXML w;
    Some (Xml output, w')
  else
    let out := "classDiagram" +:+ nl in
    let out := out +:+ String.concat "" (map mermaidDirective (Directives d)) in
    let out := out +:+ String.concat "" (map mermaidScalar (Scalars d)) in
    out ← forEach (mermaidClass (heap w)) (Classes d) out;
    let out := out +:+ String.concat "" (map mermaidRelation (Relations d)) in
    Some (Text out, w).

(** ** main, from the parsed document on *)

Definition initialWorld (formatFlag : string) (r : Rand) : World :=
  let diagram :=
    mkDiagram [] [] [] [] Mermaid 1920%float 1080%float in
  let diagram :=
    if String.eqb formatFlag "drawio"
    then mkDiagram (Classes diagram) (Relations diagram) (Scalars diagram)
           (Directives diagram) DrawIO (maxWidth diagram) (maxHeight diagram)
    else diagram in
  mkWorld diagram [] r.

Definition main (formatFlag : string) (doc : ast.Document) (r : Rand)
  : option (Output * World) :=
  outputDiagram (processSchema doc (initialWorld formatFlag r)).

(** ** The string builder of the mermaid output (lines 30-33, 545-564, 665-667)

    [processInputDefinition] writes an input object into a
    [MermaidDiagram]; [main] does not call it.  It is given the name and
    the fields of the [*ast.InputObjectDefinition]. *)

Record MermaidDiagram := mkMermaidDiagram {
  nodes : list string;
  relations : list string }.

(** Lines 551-560: one field of the input object. *)
Definition inputField (className : string) (doc : ast.Document)
    (st : string * list string) (field : ast.InputValueDefinition)
  : string * list string :=
  let '(classStr, rels) := st in
  let fieldType := getTypeString (ast.ivType field) in
  let classStr := classStr +:+ nl +:+ "    +" +:+ ast.ivName field +:+ " " +:+ fieldType in
  let rels :=
    if isObjectType (ast.ivType field) doc || isInputType (ast.ivType field) doc
    then rels ++ [className +:+ " ..> " +:+ getBaseType (ast.ivType field) +:+ " : uses"]
    else rels in
  (classStr, rels).

Definition processInputDefinition (name : string)
    (fields : list ast.InputValueDefinition) (diagram : MermaidDiagram)
    (doc : ast.Document) : MermaidDiagram :=
  let className := name in
  let classStr := "class " +:+ className +:+ " {" +:+ nl +:+ "    <<input>>" in
  let '(classStr, rels) :=
    fold_left (inputField className doc) fields (classStr, relations diagram) in
  let classStr := classStr +:+ nl +:+ "}" in
  mkMermaidDiagram (nodes diagram ++ [classStr]) rels.

Definition getDirectiveLocations (locs : list string) : list string := locs.

(** ** Vocabulary of the statements *)

(** [n'] is [n] with, at most, another position. *)
Definition sameCell (n n' : ClassNode) : Prop :=
  n' = setPosition n (cPosition n').

(** [h'] has the cells of [h], each with, at most, another position. *)
Definition framed (h h' : Heap) : Prop := Forall2 sameCell h h'.

(** A pointer that can be read. *)
Definition validPtr (h : Heap) (p : ptr) : Prop := is_Some (deref h p).

(** Every class pointer of the diagram can be read. *)
Definition wellFormed (w : World) : Prop :=
  Forall (validPtr (heap w)) (Classes (diagram w)).

(** [h'] comes from [h] by writing positions of cells of [l] only. *)
Definition updates (l : list ptr) (h h' : Heap) : Prop :=
  framed h h' ∧ ∀ q, q ∉ l → deref h' q = deref h q.

(** The node line 163 allocates for the [i]-th scalar, counting the draws
    from the cursor of [r]. *)
Definition freshScalar (d : Diagram) (r : Rand) (i : nat) (scalar : ScalarNode)
  : ClassNode :=
  mkClassNode ("scalar_" +:+ scalarName scalar) (scalarName scalar) []
    (mkPosition
       (PrimFloat.mul (draws r (cursor r + 2 * i)) (maxWidth d))
       (PrimFloat.mul (draws r (cursor r + 2 * i + 1)) (maxHeight d)))
    ScalarWidth ScalarHeight.

(** The node line 174 allocates for the [i]-th directive. *)
Definition freshDirective (d : Diagram) (r : Rand) (i : nat)
    (directive : DirectiveNode) : ClassNode :=
  mkClassNode ("directive_" +:+ directiveName directive)
    ("@" +:+ directiveName directive) []
    (mkPosition
       (PrimFloat.mul (draws r (cursor r + 2 * i)) (maxWidth d))
       (PrimFloat.mul (draws r (cursor r + 2 * i + 1)) (maxHeight d)))
    DirectiveWidth
    (PrimFloat.add DirectiveHeight
       (PrimFloat.mul (float64 (length (Arguments directive))) FieldHeight)).

(** The source moved past [n] draws. *)
Definition skip (n : nat) (r : Rand) : Rand := mkRand (draws r) (cursor r + n).

(** ** Sample inputs *)

(** A random source: the draws 1/2, 1/4, 3/4, then 1/8 for ever. *)
Definition sampleRand : Rand :=
  mkRand (λ n, match n with
               | 0 => 0.5
               | 1 => 0.25
               | 2 => 0.75
               | _ => 0.125
               end%float) 0.

(** Another source, with other draws. *)
Definition otherRand : Rand :=
  mkRand (λ n, match n with
               | 0 => 0.875
               | _ => 0.375
               end%float) 0.

(** The world [main] hands to [outputDiagram] for a document. *)
Definition worldOf (formatFlag : string) (doc : ast.Document) (r : Rand) : World :=
  processSchema doc (initialWorld formatFlag r).

(** A schema with no definition at all. *)
Definition emptySchema : ast.Document := ast.mkDocument [].

(** [type A {}  type B {}]. *)
Definition twoTypes : ast.Document :=
  ast.mkDocument [ast.ObjectDefinition "A" []; ast.ObjectDefinition "B" []].

(** [scalar Date]. *)
Definition oneScalar : ast.Document :=
  ast.mkDocument [ast.ScalarDefinition "Date" None].

(** [type A { b: B  z: Z }  type B {}  scalar S]: the field [z] names a
    type the schema does not define. *)
Definition danglingSchema : ast.Document :=
  ast.mkDocument
    [ast.ObjectDefinition "A"
       [ast.mkFieldDefinition "b" (ast.Named "B");
        ast.mkFieldDefinition "z" (ast.Named "Z")];
     ast.ObjectDefinition "B" [];
     ast.ScalarDefinition "S" None].

(** [type A { z: Z }  type B {}  scalar S]: the only relation has an end
    the schema does not define. *)
Definition danglingOnly : ast.Document :=
  ast.mkDocument
    [ast.ObjectDefinition "A" [ast.mkFieldDefinition "z" (ast.Named "Z")];
     ast.ObjectDefinition "B" [];
     ast.ScalarDefinition "S" None].

(** [type A { z: Z }  type B {}  scalar S  directive @auth(when: S) on FIELD]. *)
Definition smallSchema : ast.Document :=
  ast.mkDocument
    [ast.ObjectDefinition "A" [ast.mkFieldDefinition "z" (ast.Named "Z")];
     ast.ObjectDefinition "B" [];
     ast.ScalarDefinition "S" None;
     ast.DirectiveDefinition "auth" None
       [ast.mkInputValueDefinition "when" (ast.Named "S") None] ["FIELD"]].

(** ** The vectors the two passes add *)

Section Forces.
Local Open Scope float_scope.

(** The distance both passes divide by: the Euclidean length of
    [(dx, dy)], floored at 0.1. *)
Definition floorDist (dx dy : float) : float :=
  Max minDist (Sqrt (dx * dx + dy * dy)).

(** The push on a node at [pv] away from a node at [pu]: the displacement
    [pv - pu] over its floored length [d], scaled by [k² / d]. *)
Definition repulsion (k : float) (pv pu : Position) : Position :=
  let dx := X pv - X pu in
  let dy := Y pv - Y pu in
  let d := floorDist dx dy in
  mkPosition ((dx / d) * ((k * k) / d)) ((dy / d) * ((k * k) / d)).

(** The pull along an edge from [pf] to [pt]: the displacement [pf - pt]
    over its floored length [d], scaled by [d² / k]. *)
Definition attraction (k : float) (pf pt : Position) : Position :=
  let dx := X pf - X pt in
  let dy := Y pf - Y pt in
  let d := floorDist dx dy in
  mkPosition ((dx / d) * ((d * d) / k)) ((dy / d) * ((d * d) / k)).

Definition plus (p v : Position) : Position :=
  mkPosition (X p + X v) (Y p + Y v).

Definition minus (p v : Position) : Position :=
  mkPosition (X p - X v) (Y p - Y v).

End Forces.


(** ** Relations and their ends *)

(** Both ends of the relation are found among the nodes [l]. *)
Definition resolves (h : Heap) (l : list ptr) (rel : Relation) : bool :=
  match findEnds h rel l with
  | Some (Some _, Some _) => true
  | _ => false
  end.

Definition withRelations (d : Diagram) (rels : list Relation) : Diagram :=
  mkDiagram (Classes d) rels (Scalars d) (Directives d) (format d)
    (maxWidth d) (maxHeight d).

(** The world without the relations that have an end outside the working
    node set of [calculateLayout]. *)
Definition dropDangling (w : World) : World :=
  let bs := buildAllNodes (diagram w) (heap w) (rand w) in
  mkWorld
    (withRelations (diagram w)
       (filter (λ rel, resolves bs.1.2 bs.1.1 rel = true) (Relations (diagram w))))
    (heap w) (rand w).

(** A position with two finite coordinates: neither NaN nor an infinity. *)
Definition finitePosition (p : Position) : bool :=
  is_finite (X p) && is_finite (Y p).

Definition allFinite (h : Heap) : bool :=
  forallb (λ n, finitePosition (cPosition n)) h.

(** C6 as the specification states it, for the layout of one world: every
    relation with an end outside the working node set is skipped, and the
    layout completes with every position finite. *)
Definition danglingClaim (w : World) : Prop :=
  let bs := buildAllNodes (diagram w) (heap w) (rand w) in
  ∀ rel, rel ∈ Relations (diagram w) → resolves bs.1.2 bs.1.1 rel = false →
    (∀ k h, framed bs.1.2 h → attract k bs.1.1 rel h = Some h) ∧
    ∃ w', calculateLayout w = Some w' ∧ allFinite (heap w') = true.

(** ** Random sources *)

(** The next [n] draws of the two sources are the same. *)
Definition agree (n : nat) (r1 r2 : Rand) : Prop :=
  ∀ i, i < n → draws r1 (cursor r1 + i) = draws r2 (cursor r2 + i).

(** The same world with another random source. *)
Definition withRand (r : Rand) (w : World) : World :=
  mkWorld (diagram w) (heap w) r.

(** The number of nodes [calculateLayout] places at random. *)
Definition placed (d : Diagram) : nat :=
  length (Scalars d) + length (Directives d).

(** A third source: the first four draws of [sampleRand], then others. *)
Definition laterRand : Rand :=
  mkRand (λ n, match n with
               | 0 => 0.5
               | 1 => 0.25
               | 2 => 0.75
               | 3 => 0.125
               | _ => 0.625
               end%float) 0.

(** ** The content of a schema *)

Definition eraseNode (n : ClassNode) : ClassNode := setPosition n zeroPosition.

Definition eraseScalar (s : ScalarNode) : ScalarNode :=
  mkScalarNode (scalarName s) (scalarDescription s) zeroPosition.

Definition eraseDirective (d : DirectiveNode) : DirectiveNode :=
  mkDirectiveNode (directiveName d) (directiveDescription d) (Arguments d)
    (Locations d) zeroPosition.

(** What a world holds of the parsed schema: the classes, scalars,
    directives and relations with every attribute but the positions; not
    the canvas, not the random source. *)
Definition content (w : World)
  : list (option ClassNode) * list Relation * list ScalarNode * list DirectiveNode :=
  (map (λ p, eraseNode <$> deref (heap w) p) (Classes (diagram w)),
   Relations (diagram w),
   map eraseScalar (Scalars (diagram w)),
   map eraseDirective (Directives (diagram w))).

(** ** Positions in the output *)

(** Both coordinates are zero. *)
Definition atOrigin (p : Position) : bool :=
  PrimFloat.eqb (X p) 0 && PrimFloat.eqb (Y p) 0.

(** Every cell of the heap is at the zero value of [Position]. *)
Definition allAtOrigin (h : Heap) : Prop :=
  Forall (λ n, cPosition n = zeroPosition) h.

Definition fileCells (f : MxFile) : list MxCell :=
  Cells (Root (Model (fileDiagram f))).

(** The [x] and [y] of the geometries of the cells with identity [id]. *)
Definition geometryOf (id : string) (f : MxFile) : list Position :=
  omap (λ c, if String.eqb (cellID c) id
             then (λ g, mkPosition (geoX g) (geoY g)) <$> Geometry c
             else None) (fileCells f).

(** The positions of the nodes with identity [id]. *)
Definition positionsOf (id : string) (h : Heap) : list Position :=
  cPosition <$> filter (λ n, ID n = id) h.

(** Two nodes five units apart. *)
Definition nodeA : ClassNode :=
  mkClassNode "cA" "A" [] (mkPosition 0 0) 0 0.
Definition nodeB : ClassNode :=
  mkClassNode "cB" "B" [] (mkPosition 3 4) 0 0.
Definition sampleHeap : Heap := [nodeA; nodeB].

(** The run [out] produced a file in which the one cell with identity
    [id] is at the origin, while the [n] nodes with that identity the
    layout simulated all ended at finite positions away from the origin. *)
Definition cellLeftAtOrigin (id : string) (n : nat)
    (out : option (Output * World)) : bool :=
  match out with
  | Some (Xml f, w') =>
      (length (geometryOf id f) =? 1)
      && forallb atOrigin (geometryOf id f)
      && (length (positionsOf id (heap w')) =? n)
      && forallb (λ p, finitePosition p && negb (atOrigin p))
           (positionsOf id (heap w'))
  | _ => false
  end.


(** ** Vocabulary of the further properties *)

(** The class node [processSchema] makes of an object definition. *)
Definition classOf (def : ast.Node) : option ClassNode :=
  match def with
  | ast.ObjectDefinition name fields =>
      Some (mkClassNode ("c" +:+ name) name (map classField fields)
              zeroPosition 0%float 0%float)
  | _ => None
  end.

(** The scalar it makes of a scalar definition. *)
Definition scalarOf (def : ast.Node) : option ScalarNode :=
  match def with
  | ast.ScalarDefinition name description =>
      Some (mkScalarNode name (getDescription description) zeroPosition)
  | _ => None
  end.

(** The directive it makes of a directive definition. *)
Definition directiveOf (def : ast.Node) : option DirectiveNode :=
  match def with
  | ast.DirectiveDefinition name description arguments locations =>
      Some (mkDirectiveNode name (getDescription description)
              (map directiveArgument arguments) locations zeroPosition)
  | _ => None
  end.

(** The relations it makes of a definition. *)
Definition relationsOf (doc : ast.Document) (def : ast.Node) : list Relation :=
  match def with
  | ast.ObjectDefinition name fields => fieldRelations doc name fields
  | ast.DirectiveDefinition name _ arguments _ => argumentRelations doc name arguments
  | _ => []
  end.

(** The definitions [processSchema] has a case for. *)
Definition drawn (def : ast.Node) : bool :=
  match def with
  | ast.ObjectDefinition _ _
  | ast.ScalarDefinition _ _
  | ast.DirectiveDefinition _ _ _ _ => true
  | _ => false
  end.

Definition keepDrawn (doc : ast.Document) : ast.Document :=
  ast.mkDocument (filter (λ def, drawn def = true) (ast.Definitions doc)).

(** No input object of the document is named like a built-in scalar. *)
Definition noBuiltinInput (doc : ast.Document) : Prop :=
  Forall (λ def,
    match def with
    | ast.InputObjectDefinition name _ => isBuiltin name = false
    | _ => True
    end) (ast.Definitions doc).

(** [type A { i: In  n: Int }  input In { x: Int }  enum E  scalar S]:
    an input object and a definition of another kind among the rest. *)
Definition mixedSchema : ast.Document :=
  ast.mkDocument
    [ast.ObjectDefinition "A"
       [ast.mkFieldDefinition "i" (ast.Named "In");
        ast.mkFieldDefinition "n" (ast.NonNull (ast.Named "Int"))];
     ast.InputObjectDefinition "In"
       [ast.mkInputValueDefinition "x" (ast.Named "Int") None];
     ast.OtherDefinition;
     ast.ScalarDefinition "S" None].

(** The last pointer of [l] that reads a node named [s], nil if none does. *)
Definition lastNamed (h : Heap) (s : string) (l : list ptr) : ptr :=
  default None (last (filter (λ p, Name <$> deref h p = Some s) l)).

(** The node line 297 appends to [d.Classes] for a scalar. *)
Definition scalarCopy (scalar : ScalarNode) : ClassNode :=
  mkClassNode ("scalar_" +:+ scalarName scalar) (scalarName scalar) []
    zeroPosition ScalarWidth ScalarHeight.

(** The node line 327 appends to [d.Classes] for a directive. *)
Definition directiveCopy (directive : DirectiveNode) : ClassNode :=
  mkClassNode ("directive_" +:+ directiveName directive)
    ("@" +:+ directiveName directive) [] zeroPosition DirectiveWidth
    (PrimFloat.add DirectiveHeight
       (PrimFloat.mul (float64 (length (Arguments directive))) FieldHeight)).


(** What the layout reads of a node: its name and its position. *)
Definition layoutEq (n n' : ClassNode) : Prop :=
  Name n = Name n' ∧ cPosition n = cPosition n'.

Definition layoutView (h : Heap) : list (string * Position) :=
  map (λ n, (Name n, cPosition n)) h.

(** A diagram of two classes with one relation, and a heap that agrees
    with [sampleHeap] on names and positions only. *)
Definition pairDiagram : Diagram :=
  mkDiagram [Some 0; Some 1] [mkRelation "A" "B" "uses" ""] [] [] DrawIO
    1920%float 1080%float.
Definition wideHeap : Heap :=
  [mkClassNode "x" "A" [mkField "f" "Int" false] (mkPosition 0 0) 200 50;
   mkClassNode "y" "B" [] (mkPosition 3 4) 80 80].

(** The line [processInputDefinition] writes for a field. *)
Definition inputFieldLine (field : ast.InputValueDefinition) : string :=
  nl +:+ "    +" +:+ ast.ivName field +:+ " " +:+ getTypeString (ast.ivType field).

(** The relation it writes for a field, if it writes one. *)
Definition inputFieldRelation (className : string) (doc : ast.Document)
    (field : ast.InputValueDefinition) : option string :=
  if isObjectType (ast.ivType field) doc || isInputType (ast.ivType field) doc
  then Some (className +:+ " ..> " +:+ getBaseType (ast.ivType field) +:+ " : uses")
  else None.

(** The names under which the first layout of a parsed schema knows its
    nodes: the object types, the scalars, and the directives with an at
    sign in front. *)
Definition nodeNames (doc : ast.Document) : list string :=
  (Name <$> omap classOf (ast.Definitions doc))
  ++ (scalarName <$> omap scalarOf (ast.Definitions doc))
  ++ ((λ directive, "@" +:+ directiveName directive)
        <$> omap directiveOf (ast.Definitions doc)).

(** The text the mermaid branch prints for a class node. *)
Definition mermaidClassText (class : ClassNode) : string :=
  "class " +:+ Name class +:+ " {" +:+ nl
  +:+ String.concat "" (map mermaidField (Fields class))
  +:+ "}" +:+ nl.


(** ** The forces as scaled unit vectors *)

Section UnitForces.
Local Open Scope float_scope.








End UnitForces.





(** The working node set and the heap of the first layout of a world. *)
Definition workingSet (w : World) : list ptr :=
  (buildAllNodes (diagram w) (heap w) (rand w)).1.1.
Definition workingHeap (w : World) : Heap :=
  (buildAllNodes (diagram w) (heap w) (rand w)).1.2.

(** [type A { b: B }  type B {}  scalar S]: [danglingSchema] without the
    field that names an undefined type. *)
Definition edgeOnly : ast.Document :=
  ast.mkDocument
    [ast.ObjectDefinition "A" [ast.mkFieldDefinition "b" (ast.Named "B")];
     ast.ObjectDefinition "B" [];
     ast.ScalarDefinition "S" None].

(** Both coordinates are NaN. *)
Definition nanPosition (p : Position) : bool := is_nan (X p) && is_nan (Y p).

(** The layout completed and left NaN in every position. *)
Definition endsAllNaN (w : World) : bool :=
  match calculateLayout w with
  | Some w' => forallb (λ n, nanPosition (cPosition n)) (heap w')
  | None => false
  end.

(** The layout completed and left a finite number in every position. *)
Definition endsAllFinite (w : World) : bool :=
  match calculateLayout w with
  | Some w' => allFinite (heap w')
  | None => false
  end.

Section Shortfall.
Local Open Scope float_scope.


End Shortfall.

(** Whether every position is finite after [n] iterations of the first
    layout of a world. *)
Definition finiteAfter (n : nat) (w : World) : option bool :=
  allFinite <$>
    repeatN n
      (iteration (idealLength (diagram w)) (workingSet w) (Relations (diagram w)))
      (workingHeap w).
(** * Properties *)

(** ** Loops *)

Lemma forEach_total {A S : Type} (I : S → Prop) (body : A → S → option S) l :
  (∀ a s, a ∈ l → I s → ∃ s', body a s = Some s' ∧ I s') →
  ∀ s, I s → ∃ s', forEach body l s = Some s' ∧ I s'.
Proof.
  induction l as [|a l IH]; intros Hb s Hs; simpl.
  - eauto.
  - destruct (Hb a s) as (s1 & -> & Hs1); [left | done |]. simpl.
    apply IH; [|done]. intros b t Hin. apply Hb. by right.
Qed.

Lemma forEach_preserves {A S : Type} (I : S → Prop) (body : A → S → option S) l :
  (∀ a s s', a ∈ l → I s → body a s = Some s' → I s') →
  ∀ s s', I s → forEach body l s = Some s' → I s'.
Proof.
  induction l as [|a l IH]; intros Hb s s' Hs; simpl.
  - by intros [= <-].
  - destruct (body a s) as [s1|] eqn:E; simpl; [|done].
    apply IH; [|eapply Hb; eauto; left].
    intros b t t' Hin. apply Hb. by right.
Qed.

Lemma forEach_app {A S : Type} (body : A → S → option S) l1 l2 s :
  forEach body (l1 ++ l2) s = s' ← forEach body l1 s; forEach body l2 s'.
Proof.
  revert s. induction l1 as [|a l1 IH]; intros s; simpl; [done|].
  destruct (body a s); simpl; [apply IH | done].
Qed.

Lemma forEach_ext {A S : Type} (f g : A → S → option S) l s :
  (∀ a t, a ∈ l → f a t = g a t) → forEach f l s = forEach g l s.
Proof.
  revert s. induction l as [|a l IH]; intros s Hfg; simpl; [done|].
  rewrite Hfg by left. destruct (g a s); simpl; [|done].
  apply IH. intros b t Hin. apply Hfg. by right.
Qed.

Lemma repeatN_total {S : Type} (I : S → Prop) (body : S → option S) n :
  (∀ s, I s → ∃ s', body s = Some s' ∧ I s') →
  ∀ s, I s → ∃ s', repeatN n body s = Some s' ∧ I s'.
Proof.
  intros Hb. induction n as [|n IH]; intros s Hs; simpl; [eauto|].
  destruct (Hb s Hs) as (s1 & -> & Hs1). simpl. by apply IH.
Qed.

Lemma repeatN_preserves {S : Type} (I : S → Prop) (body : S → option S) n :
  (∀ s s', I s → body s = Some s' → I s') →
  ∀ s s', I s → repeatN n body s = Some s' → I s'.
Proof.
  intros Hb. induction n as [|n IH]; intros s s' Hs; simpl.
  - by intros [= <-].
  - destruct (body s) as [s1|] eqn:E; simpl; [|done]. apply IH. eauto.
Qed.

Lemma repeatN_ext {S : Type} (I : S → Prop) (f g : S → option S) n :
  (∀ s, I s → f s = g s) → (∀ s s', I s → f s = Some s' → I s') →
  ∀ s, I s → repeatN n f s = repeatN n g s.
Proof.
  intros Hfg Hp. induction n as [|n IH]; intros s Hs; simpl; [done|].
  rewrite <- Hfg by done. destruct (f s) as [s1|] eqn:E; simpl; [|done].
  apply IH. eauto.
Qed.

(** ** The heap *)

Lemma sameCell_refl n : sameCell n n.
Proof. by destruct n. Qed.

Lemma sameCell_trans n1 n2 n3 : sameCell n1 n2 → sameCell n2 n3 → sameCell n1 n3.
Proof. unfold sameCell. intros -> ->. done. Qed.

Lemma framed_refl h : framed h h.
Proof.
  apply Forall2_same_length_lookup_2; [done|].
  intros i x y -> [= ->]. apply sameCell_refl.
Qed.

Lemma framed_trans h1 h2 h3 : framed h1 h2 → framed h2 h3 → framed h1 h3.
Proof.
  unfold framed. intros H12 H23. eapply Forall2_trans; [|done..].
  apply sameCell_trans.
Qed.

Lemma framed_validPtr h h' p : framed h h' → validPtr h p → validPtr h' p.
Proof.
  intros Hf [n Hn]. destruct p as [a|]; [|done]. simpl in Hn.
  destruct (Forall2_lookup_l _ _ _ _ _ Hf Hn) as (n' & Hn' & _).
  by exists n'.
Qed.

Lemma writePosition_Some h a pos n :
  h !! a = Some n → writePosition h (Some a) pos = Some (<[a := setPosition n pos]> h).
Proof. intros Hn. unfold writePosition. simpl. by rewrite Hn. Qed.

Lemma writePosition_framed h p pos h' :
  writePosition h p pos = Some h' → framed h h'.
Proof.
  destruct p as [a|]; [|done]. unfold writePosition. simpl.
  destruct (h !! a) as [n|] eqn:Hn; [|done]. simpl. intros [= <-].
  apply Forall2_same_length_lookup_2; [by rewrite length_insert|].
  intros i x y Hx Hy. destruct (decide (a = i)) as [->|Hne].
  - rewrite list_lookup_insert_eq in Hy by (by eapply lookup_lt_Some).
    injection Hy as <-. rewrite Hn in Hx. injection Hx as <-. by destruct n.
  - rewrite list_lookup_insert_ne in Hy by done. rewrite Hx in Hy.
    injection Hy as <-. apply sameCell_refl.
Qed.

Lemma writePosition_other h p pos h' q :
  writePosition h p pos = Some h' → q ≠ p → deref h' q = deref h q.
Proof.
  destruct p as [a|]; [|done]. unfold writePosition. simpl.
  destruct (h !! a) as [n|] eqn:Hn; [|done]. simpl. intros [= <-] Hne.
  destruct q as [b|]; [|done]. simpl. apply list_lookup_insert_ne. congruence.
Qed.

Lemma writePosition_same h p pos n :
  deref h p = Some n →
  ∃ h', writePosition h p pos = Some h' ∧ deref h' p = Some (setPosition n pos).
Proof.
  destruct p as [a|]; [|done]. intros Hn. simpl in Hn.
  rewrite (writePosition_Some _ _ pos _ Hn). eexists; split; [done|]. simpl.
  apply list_lookup_insert_eq. by eapply lookup_lt_Some.
Qed.

(** ** The working node set *)

Lemma addScalars_spec d ss l h r :
  fold_left (λ st scalar, addScalar d scalar st) ss (l, h, r) =
  (l ++ (Some <$> seq (length h) (length ss)),
   h ++ imap (freshScalar d r) ss,
   skip (2 * length ss) r).
Proof.
  revert l h r. induction ss as [|s ss IH]; intros l h r.
  - simpl. rewrite !app_nil_r. destruct r as [f c]. unfold skip. simpl.
    by rewrite Nat.add_0_r.
  - cbn [fold_left]. unfold addScalar at 2. cbn [Float64 alloc].
    rewrite IH. cbn [length seq fmap list_fmap imap draws cursor].
    rewrite length_app. cbn [length]. rewrite Nat.add_1_r.
    rewrite <- !app_assoc. cbn [app]. f_equal; [f_equal|].
    + f_equal. f_equal.
      * unfold freshScalar. rewrite Nat.mul_0_r, !Nat.add_0_r, Nat.add_1_r. done.
      * apply imap_ext. intros i x _. unfold freshScalar. cbn [draws cursor compose].
        replace (S (S (cursor r)) + 2 * i) with (cursor r + 2 * S i) by lia. done.
    + unfold skip. cbn [draws cursor]. f_equal. lia.
Qed.

Lemma addDirectives_spec d ds l h r :
  fold_left (λ st directive, addDirective d directive st) ds (l, h, r) =
  (l ++ (Some <$> seq (length h) (length ds)),
   h ++ imap (freshDirective d r) ds,
   skip (2 * length ds) r).
Proof.
  revert l h r. induction ds as [|s ds IH]; intros l h r.
  - simpl. rewrite !app_nil_r. destruct r as [f c]. unfold skip. simpl.
    by rewrite Nat.add_0_r.
  - cbn [fold_left]. unfold addDirective at 2. cbn [Float64 alloc].
    rewrite IH. cbn [length seq fmap list_fmap imap draws cursor].
    rewrite length_app. cbn [length]. rewrite Nat.add_1_r.
    rewrite <- !app_assoc. cbn [app]. f_equal; [f_equal|].
    + f_equal. f_equal.
      * unfold freshDirective. rewrite Nat.mul_0_r, !Nat.add_0_r, Nat.add_1_r. done.
      * apply imap_ext. intros i x _. unfold freshDirective. cbn [draws cursor compose].
        replace (S (S (cursor r)) + 2 * i) with (cursor r + 2 * S i) by lia. done.
    + unfold skip. cbn [draws cursor]. f_equal. lia.
Qed.

(** The working node set in closed form: the class pointers, then one fresh
    cell per scalar and per directive, each placed by two draws. *)
Lemma buildAllNodes_spec d h r :
  buildAllNodes d h r =
  (Classes d
     ++ (Some <$> seq (length h) (length (Scalars d)))
     ++ (Some <$> seq (length h + length (Scalars d)) (length (Directives d))),
   h ++ imap (freshScalar d r) (Scalars d)
     ++ imap (freshDirective d (skip (2 * length (Scalars d)) r)) (Directives d),
   skip (2 * (length (Scalars d) + length (Directives d))) r).
Proof.
  unfold buildAllNodes. rewrite addScalars_spec, addDirectives_spec.
  rewrite length_app, length_imap, <- !app_assoc. f_equal.
  unfold skip. cbn. f_equal. lia.
Qed.

(** ** One invocation of the simulation: what it may write *)

Lemma updates_refl l h : updates l h h.
Proof. split; [apply framed_refl | done]. Qed.

Lemma updates_trans l h1 h2 h3 : updates l h1 h2 → updates l h2 h3 → updates l h1 h3.
Proof.
  intros [F12 O12] [F23 O23]. split; [by eapply framed_trans|].
  intros q Hq. rewrite O23, O12; done.
Qed.

Lemma writePosition_updates l h p pos h' :
  p ∈ l → writePosition h p pos = Some h' → updates l h h'.
Proof.
  intros Hp Hw. split; [by eapply writePosition_framed|].
  intros q Hq. eapply writePosition_other; [done|]. by intros ->.
Qed.

Lemma repel_updates l k v u h h' :
  v ∈ l → repel k v u h = Some h' → updates l h h'.
Proof.
  intros Hv. unfold repel. case_decide; [intros [= <-]; apply updates_refl|].
  destruct (deref h v) as [nv|]; [|done].
  destruct (deref h u) as [nu|]; [|done]. simpl.
  by apply writePosition_updates.
Qed.

Lemma repulsionPass_updates k l h h' :
  repulsionPass k l h = Some h' → updates l h h'.
Proof.
  unfold repulsionPass. apply (forEach_preserves (updates l h)); [|apply updates_refl].
  intros v s s' Hv Hs. apply (forEach_preserves (updates l h)); [|done].
  intros u t t' _ Ht Hr. eapply updates_trans; [done|]. by eapply repel_updates.
Qed.

(** The ends [findEnds] returns are nil or nodes of the working set that
    can be read. *)
Lemma findEnds_elem h rel l f t :
  findEnds h rel l = Some (f, t) →
  (f = None ∨ f ∈ l ∧ validPtr h f) ∧ (t = None ∨ t ∈ l ∧ validPtr h t).
Proof.
  unfold findEnds.
  set (I := λ ft : ptr * ptr,
    (ft.1 = None ∨ ft.1 ∈ l ∧ validPtr h ft.1) ∧
    (ft.2 = None ∨ ft.2 ∈ l ∧ validPtr h ft.2)).
  intros H. apply (forEach_preserves I (findEnd h rel) l) in H; [done| |by split; left].
  intros p [f0 t0] [f1 t1] Hp [Hf Ht]. unfold findEnd.
  destruct (deref h p) as [n|] eqn:Hn; [|done]. simpl. intros [= <- <-].
  split; simpl in *.
  - destruct (String.eqb _ _); [right; split; [done|by exists n] | done].
  - destruct (String.eqb _ _); [right; split; [done|by exists n] | done].
Qed.

Lemma pull_updates l k f t h h' :
  f ∈ l → t ∈ l → pull k f t h = Some h' → updates l h h'.
Proof.
  intros Hf Ht. unfold pull.
  destruct (deref h f) as [nf|]; [|done].
  destruct (deref h t) as [nt|]; [|done]. simpl.
  destruct (writePosition h f _) as [h1|] eqn:H1; [|done]. simpl.
  destruct (deref h1 t) as [nt'|]; [|done]. simpl. intros H2.
  eapply updates_trans.
  - by apply (writePosition_updates l _ f _ _ Hf H1).
  - by apply (writePosition_updates l _ t _ _ Ht H2).
Qed.

Lemma attract_updates k l rel h h' :
  attract k l rel h = Some h' → updates l h h'.
Proof.
  unfold attract. destruct (findEnds h rel l) as [[f t]|] eqn:E; [|done]. simpl.
  apply findEnds_elem in E as [Hf Ht].
  destruct f as [f|]; [|intros [= <-]; apply updates_refl].
  destruct t as [t|]; [|intros [= <-]; apply updates_refl].
  destruct Hf as [|[Hf _]]; [done|]. destruct Ht as [|[Ht _]]; [done|].
  by apply pull_updates.
Qed.

Lemma iteration_updates k l rels h h' :
  iteration k l rels h = Some h' → updates l h h'.
Proof.
  unfold iteration. destruct (repulsionPass k l h) as [h1|] eqn:E; [|done]. simpl.
  apply repulsionPass_updates in E. unfold attractionPass.
  apply (forEach_preserves (updates l h)); [|done].
  intros rel s s' _ Hs Ha. eapply updates_trans; [done|]. by eapply attract_updates.
Qed.

Lemma simulation_updates n k l rels h h' :
  repeatN n (iteration k l rels) h = Some h' → updates l h h'.
Proof.
  apply (repeatN_preserves (updates l h)); [|apply updates_refl].
  intros s s' Hs Hi. eapply updates_trans; [done|]. by eapply iteration_updates.
Qed.

(** ** One invocation of the simulation: it completes *)

Lemma repel_is_Some k v u h :
  validPtr h v → validPtr h u → is_Some (repel k v u h).
Proof.
  intros [nv Hv] [nu Hu]. unfold repel. case_decide; [done|].
  rewrite Hv, Hu. simpl.
  edestruct (writePosition_same h v) as (h' & -> & _); done.
Qed.

Lemma findEnds_is_Some h rel l :
  Forall (validPtr h) l → is_Some (findEnds h rel l).
Proof.
  intros Hl. unfold findEnds.
  destruct (forEach_total (λ _, True) (findEnd h rel) l) with (s := (None : ptr, None : ptr))
    as (ft & -> & _); [|done..].
  intros p ft Hp _. rewrite Forall_forall in Hl. destruct (Hl p Hp) as [n Hn].
  unfold findEnd. rewrite Hn. simpl. eauto.
Qed.

Lemma pull_is_Some k f t h :
  validPtr h f → validPtr h t → is_Some (pull k f t h).
Proof.
  intros [nf Hf] Ht. pose proof Ht as [nt Hnt]. unfold pull. rewrite Hf, Hnt. simpl.
  edestruct (writePosition_same h f) as (h1 & E1 & _); [done|].
  rewrite E1. simpl.
  assert (validPtr h1 t) as [nt' Hnt'].
  { eapply framed_validPtr; [|done]. by eapply writePosition_framed. }
  rewrite Hnt'. simpl.
  edestruct (writePosition_same h1 t) as (h2 & -> & _); done.
Qed.

Lemma attract_is_Some k l rel h :
  Forall (validPtr h) l → is_Some (attract k l rel h).
Proof.
  intros Hl. unfold attract.
  destruct (findEnds_is_Some h rel l Hl) as [[f t] E]. rewrite E. simpl.
  apply findEnds_elem in E as [Hf Ht].
  destruct f as [f|]; [|done]. destruct t as [t|]; [|done].
  destruct Hf as [|[_ Hf]]; [done|]. destruct Ht as [|[_ Ht]]; [done|].
  by apply pull_is_Some.
Qed.

Lemma valid_framed h h' l :
  framed h h' → Forall (validPtr h) l → Forall (validPtr h') l.
Proof.
  intros Hf Hl. eapply Forall_impl; [done|]. intros p. by apply framed_validPtr.
Qed.

Lemma repulsionPass_total k l h :
  Forall (validPtr h) l → ∃ h', repulsionPass k l h = Some h' ∧ framed h h'.
Proof.
  intros Hl. unfold repulsionPass.
  apply (forEach_total (framed h)); [|apply framed_refl].
  intros v s Hv Hs. apply (forEach_total (framed h)); [|done].
  intros u t Hu Ht. pose proof (valid_framed _ _ _ Ht Hl) as Hl'.
  rewrite Forall_forall in Hl'.
  destruct (repel_is_Some k v u t) as [t' E]; [by apply Hl'..|].
  exists t'. split; [done|]. eapply framed_trans; [done|].
  by apply (repel_updates l) in E as [? _].
Qed.

Lemma attractionPass_total k l rels h :
  Forall (validPtr h) l → ∃ h', attractionPass k l rels h = Some h' ∧ framed h h'.
Proof.
  intros Hl. unfold attractionPass.
  apply (forEach_total (framed h)); [|apply framed_refl].
  intros rel s _ Hs. pose proof (valid_framed _ _ _ Hs Hl) as Hl'.
  destruct (attract_is_Some k l rel s Hl') as [s' E].
  exists s'. split; [done|]. eapply framed_trans; [done|].
  by apply attract_updates in E as [? _].
Qed.

Lemma iteration_total k l rels h :
  Forall (validPtr h) l → ∃ h', iteration k l rels h = Some h' ∧ framed h h'.
Proof.
  intros Hl. unfold iteration.
  destruct (repulsionPass_total k l h Hl) as (h1 & -> & F1). simpl.
  destruct (attractionPass_total k l rels h1) as (h2 & -> & F2);
    [by eapply valid_framed|].
  exists h2. split; [done|]. by eapply framed_trans.
Qed.

Lemma simulation_total n k l rels h :
  Forall (validPtr h) l →
  ∃ h', repeatN n (iteration k l rels) h = Some h' ∧ framed h h'.
Proof.
  intros Hl. apply (repeatN_total (framed h)); [|apply framed_refl].
  intros s Hs. destruct (iteration_total k l rels s) as (s' & -> & F);
    [by eapply valid_framed|].
  exists s'. split; [done|]. by eapply framed_trans.
Qed.

(** Allocation keeps the old pointers readable, and the new ones are. *)
Lemma validPtr_app (h fresh : Heap) (p : ptr) : validPtr h p → validPtr (h ++ fresh) p.
Proof.
  intros [n Hn]. destruct p as [a|]; [|done]. exists n. simpl in *.
  by apply lookup_app_l_Some.
Qed.

Lemma Forall_validPtr_seq (h : Heap) (a n : nat) :
  (a + n ≤ length h)%nat → Forall (validPtr h) (Some <$> seq a n).
Proof.
  intros Hn. apply Forall_fmap, Forall_forall. intros i Hi.
  apply elem_of_seq in Hi. unfold validPtr. simpl.
  apply lookup_lt_is_Some. lia.
Qed.

Lemma buildAllNodes_valid d h r l h0 r' :
  buildAllNodes d h r = (l, h0, r') →
  Forall (validPtr h) (Classes d) → Forall (validPtr h0) l.
Proof.
  rewrite buildAllNodes_spec. intros [= <- <- <-] Hc.
  rewrite !Forall_app. split_and!.
  - eapply Forall_impl; [done|]. intros p. apply validPtr_app.
  - apply Forall_validPtr_seq. rewrite !length_app, !length_imap. lia.
  - apply Forall_validPtr_seq. rewrite !length_app, !length_imap. lia.
Qed.

(** [calculateLayout] in closed form. *)
Lemma calculateLayout_unfold w :
  calculateLayout w =
  let d := diagram w in
  let bs := buildAllNodes d (heap w) (rand w) in
  h ← repeatN iterations (iteration (idealLength d) bs.1.1 (Relations d)) bs.1.2;
  Some (mkWorld d h bs.2).
Proof.
  unfold calculateLayout. destruct (buildAllNodes _ _ _) as [[l h0] r']. done.
Qed.

(** A well-formed world has a layout: no step of [calculateLayout] panics. *)
Lemma calculateLayout_total w :
  wellFormed w → is_Some (calculateLayout w).
Proof.
  intros Hw. rewrite calculateLayout_unfold. cbv zeta.
  destruct (buildAllNodes _ _ _) as [[l h0] r'] eqn:E. cbn [fst snd].
  destruct (simulation_total iterations (idealLength (diagram w)) l
              (Relations (diagram w)) h0) as (h' & -> & _).
  - by eapply buildAllNodes_valid.
  - done.
Qed.

(** ** The frame of one invocation *)


(** C8.  One invocation of [calculateLayout] leaves the diagram as it was:
    the relation list with every label and rendering hint, the lists of
    class pointers, of scalars and of directives.  Every cell that was in
    the heap is still there with its identity, name, fields, width and
    height ([framed]); only positions were written, and only of cells the
    diagram's class pointers reach.  The cells that follow are the
    temporaries of the invocation, one per scalar and per directive. *)
Theorem calculateLayout_frame w w' :
  calculateLayout w = Some w' →
  diagram w' = diagram w ∧
  ∃ h1 fresh,
    heap w' = h1 ++ fresh ∧
    updates (Classes (diagram w)) (heap w) h1 ∧
    length fresh = (length (Scalars (diagram w)) + length (Directives (diagram w)))%nat.
Proof.
  rewrite calculateLayout_unfold. cbv zeta. rewrite buildAllNodes_spec. cbn [fst snd].
  destruct (repeatN _ _ _) as [h'|] eqn:E; [|done]. simpl. intros [= <-]. simpl.
  split; [done|].
  apply simulation_updates in E as [F O].
  apply Forall2_app_inv_l in F as (h1 & fresh & F1 & F2 & ->).
  exists h1, fresh. split; [done|]. split; [split; [done|]|].
  - intros q Hq. destruct q as [a|]; [|done].
    pose proof (Forall2_length _ _ _ F1) as L1.
    destruct (decide (a < length (heap w))%nat) as [Ha|Ha].
    + specialize (O (Some a)). simpl in *.
      rewrite !lookup_app_l in O by lia. apply O.
      rewrite !elem_of_app, !list_elem_of_fmap.
      intros [?|[(i & [= ->] & Hi)|(i & [= ->] & Hi)]]; [done|..];
        apply elem_of_seq in Hi; lia.
    + simpl. rewrite !lookup_ge_None_2 by lia. done.
  - apply Forall2_length in F2. rewrite <- F2, length_app, !length_imap. done.
Qed.

(** ** Zero nodes *)

Lemma iteration_nil k rels h : iteration k [] rels h = Some h.
Proof.
  unfold iteration. simpl. unfold attractionPass.
  induction rels as [|rel rels IH]; simpl; done.
Qed.

Lemma simulation_nil n k rels h : repeatN n (iteration k [] rels) h = Some h.
Proof. induction n as [|n IH]; simpl; [done|]. by rewrite iteration_nil. Qed.

(** C4, as the code has it.  With no class, no scalar and no directive,
    [calculateLayout] returns normally: the division by a zero count is a
    division of floats, which does not trap (the ideal length is +Inf or
    NaN), and the function has no error to report.  It lays nothing out,
    draws no random number and leaves the world exactly as it was. *)
Theorem calculateLayout_no_nodes w :
  Classes (diagram w) = [] → Scalars (diagram w) = [] → Directives (diagram w) = [] →
  calculateLayout w = Some w.
Proof.
  intros Hc Hs Hd. rewrite calculateLayout_unfold. cbv zeta.
  rewrite buildAllNodes_spec, Hc, Hs, Hd. cbn [fst snd length seq fmap list_fmap imap app].
  rewrite app_nil_r, simulation_nil. simpl.
  destruct w as [d h [f c]]. unfold skip. simpl. by rewrite Nat.add_0_r.
Qed.

Lemma calculateLayout_no_nodes_witness :
  calculateLayout (worldOf "drawio" emptySchema sampleRand)
  = Some (worldOf "drawio" emptySchema sampleRand).
Proof. apply calculateLayout_no_nodes; reflexivity. Defined.

(** C4, as the specification states it, fails: the layout of a diagram
    with zero nodes is not an error. *)
Lemma calculateLayout_no_nodes_is_no_error :
  ¬ (∀ w, Classes (diagram w) = [] → Scalars (diagram w) = [] →
          Directives (diagram w) = [] → calculateLayout w = None).
Proof.
  intros H. specialize (H (worldOf "drawio" emptySchema sampleRand) eq_refl eq_refl eq_refl).
  vm_compute in H. discriminate H.
Qed.

Lemma calculateLayout_frame_witness :
  ∃ w', calculateLayout (worldOf "drawio" smallSchema sampleRand) = Some w' ∧
    diagram w' = diagram (worldOf "drawio" smallSchema sampleRand) ∧
    ∃ h1 fresh,
      heap w' = h1 ++ fresh ∧
      updates (Classes (diagram (worldOf "drawio" smallSchema sampleRand)))
        (heap (worldOf "drawio" smallSchema sampleRand)) h1 ∧
      length fresh = 2.
Proof.
  destruct (calculateLayout (worldOf "drawio" smallSchema sampleRand)) as [w'|] eqn:E.
  - exists w'. split; [reflexivity|]. exact (calculateLayout_frame _ _ E).
  - vm_compute in E. discriminate E.
Defined.

(** ** The floor on the distance *)

Lemma Max_minDist_cases y :
  Max minDist y = infinity ∨ Max minDist y = nan ∨ Max minDist y = minDist ∨
  (Max minDist y = y ∧ PrimFloat.ltb y minDist = false ∧ is_nan y = false).
Proof.
  unfold Max.
  change (PrimFloat.eqb minDist infinity) with false.
  change (is_nan minDist) with false.
  change (PrimFloat.eqb minDist 0) with false.
  cbn [orb andb].
  destruct (PrimFloat.eqb y infinity); [by left|].
  destruct (is_nan y) eqn:Hn; [by right; left|].
  destruct (PrimFloat.ltb y minDist) eqn:Hl; [by right; right; left|].
  right; right; right. by split.
Qed.

Lemma Prim2SF_minDist :
  Prim2SF minDist = S754_finite false 7205759403792794 (-56).
Proof. vm_compute. reflexivity. Qed.

Lemma Prim2SF_zero : Prim2SF 0 = S754_zero false.
Proof. reflexivity. Qed.

(** A float that is not below 0.1 is not a zero. *)
Lemma not_below_minDist_nonzero y :
  PrimFloat.ltb y minDist = false → PrimFloat.eqb y 0 = false.
Proof.
  intros Hl. rewrite FloatAxioms.ltb_spec, Prim2SF_minDist in Hl.
  rewrite FloatAxioms.eqb_spec, Prim2SF_zero.
  destruct (Prim2SF y) as [s|s| |s m e].
  - discriminate Hl.
  - destruct s; reflexivity.
  - reflexivity.
  - destruct s; reflexivity.
Qed.

(** A number that is not below 0.1 is at least 0.1. *)
Lemma not_below_minDist_above y :
  PrimFloat.ltb y minDist = false → is_nan y = false →
  PrimFloat.leb minDist y = true.
Proof.
  unfold is_nan. intros Hl Hn. rewrite FloatAxioms.ltb_spec, Prim2SF_minDist in Hl.
  rewrite FloatAxioms.eqb_spec in Hn. rewrite FloatAxioms.leb_spec, Prim2SF_minDist.
  revert Hl Hn. destruct (Prim2SF y) as [s|s| |s m e].
  - intros Hl. discriminate Hl.
  - destruct s; [intros Hl; discriminate Hl | reflexivity].
  - intros _ Hn. discriminate Hn.
  - destruct s; [intros Hl; discriminate Hl|].
    unfold SFltb, SFleb, SFcompare.
    rewrite (Z.compare_antisym (-56) e).
    destruct (-56 ?= e)%Z; cbn [CompOpp].
    + rewrite <- (Pos.compare_cont_antisym _ _ Eq).
      destruct (Pos.compare_cont Eq 7205759403792794 m); cbn [CompOpp];
        intros Hl _; first [reflexivity | discriminate Hl].
    + reflexivity.
    + intros Hl. discriminate Hl.
Qed.

Lemma floorDist_nonzero dx dy : PrimFloat.eqb (floorDist dx dy) 0 = false.
Proof.
  unfold floorDist.
  destruct (Max_minDist_cases (Sqrt (dx * dx + dy * dy)))
    as [-> | [-> | [-> | (-> & Hl & _)]]]; try reflexivity.
  by apply not_below_minDist_nonzero.
Qed.

Lemma floorDist_floor dx dy :
  is_nan (floorDist dx dy) = true ∨ PrimFloat.leb minDist (floorDist dx dy) = true.
Proof.
  unfold floorDist.
  destruct (Max_minDist_cases (Sqrt (dx * dx + dy * dy)))
    as [-> | [-> | [-> | (-> & Hl & Hn)]]].
  - by right.
  - by left.
  - by right.
  - right. by apply not_below_minDist_above.
Qed.

Lemma repel_floorDist k v u h nv nu :
  v ≠ u → deref h v = Some nv → deref h u = Some nu →
  repel k v u h =
  writePosition h v (plus (cPosition nv) (repulsion k (cPosition nv) (cPosition nu))).
Proof.
  intros Hne Hv Hu. unfold repel. rewrite decide_False by done.
  rewrite Hv, Hu. reflexivity.
Qed.

Lemma pull_floorDist k f t h nf nt :
  deref h f = Some nf → deref h t = Some nt →
  pull k f t h =
  h1 ← writePosition h f
         (minus (cPosition nf) (attraction k (cPosition nf) (cPosition nt)));
  nt' ← deref h1 t;
  writePosition h1 t
    (plus (cPosition nt') (attraction k (cPosition nf) (cPosition nt))).
Proof. intros Hf Ht. unfold pull. rewrite Hf, Ht. reflexivity. Qed.

(** C7.  Both passes divide by [floorDist dx dy], the Euclidean length of
    the displacement floored with [math.Max(0.1, _)]: the repulsion of a
    pair of distinct nodes and the pull along an edge are the vectors
    [repulsion] and [attraction], which share that one divisor.  The
    divisor is never a zero: it is NaN (when a coordinate already was
    non-finite) or at least 0.1.  For coincident points it is exactly 0.1
    and the quotient is 0, not NaN.  And in a world whose class pointers
    can be read, no step of the hundred iterations panics. *)
Theorem distance_floor_in_both_passes :
  (∀ k v u h nv nu,
     v ≠ u → deref h v = Some nv → deref h u = Some nu →
     repel k v u h =
     writePosition h v
       (plus (cPosition nv) (repulsion k (cPosition nv) (cPosition nu)))) ∧
  (∀ k f t h nf nt,
     deref h f = Some nf → deref h t = Some nt →
     pull k f t h =
     h1 ← writePosition h f
            (minus (cPosition nf) (attraction k (cPosition nf) (cPosition nt)));
     nt' ← deref h1 t;
     writePosition h1 t
       (plus (cPosition nt') (attraction k (cPosition nf) (cPosition nt)))) ∧
  (∀ dx dy, PrimFloat.eqb (floorDist dx dy) 0 = false) ∧
  (∀ dx dy, is_nan (floorDist dx dy) = true
            ∨ PrimFloat.leb minDist (floorDist dx dy) = true) ∧
  (floorDist 0 0 = minDist ∧ PrimFloat.div 0 (floorDist 0 0) = 0%float) ∧
  (∀ w, wellFormed w → is_Some (calculateLayout w)).
Proof.
  split_and!.
  - apply repel_floorDist.
  - apply pull_floorDist.
  - apply floorDist_nonzero.
  - apply floorDist_floor.
  - reflexivity.
  - reflexivity.
  - apply calculateLayout_total.
Qed.

(** ** The two passes *)


Lemma forEach_filter {A S : Type} (P : A → Prop) `{∀ a, Decision (P a)}
    (g : A → S → option S) l s :
  forEach g (filter P l) s =
  forEach (λ a t, if decide (P a) then g a t else Some t) l s.
Proof.
  revert s. induction l as [|a l IH]; intros s; [done|].
  rewrite filter_cons. cbn [forEach]. destruct (decide (P a)); cbn [forEach].
  - destruct (g a s); simpl; [apply IH | done].
  - simpl. apply IH.
Qed.

Lemma forEach_singleton {A S : Type} (g : A → S → option S) a s :
  forEach g [a] s = g a s.
Proof. simpl. by destruct (g a s). Qed.





(** ** Relations with a missing end *)

Lemma forEach_ext_inv {A S : Type} (I : S → Prop) (f g : A → S → option S) l :
  (∀ a s, a ∈ l → I s → f a s = g a s) →
  (∀ a s s', a ∈ l → I s → f a s = Some s' → I s') →
  ∀ s, I s → forEach f l s = forEach g l s.
Proof.
  induction l as [|a l IH]; intros Hfg Hp s Hs; simpl; [done|].
  rewrite <- Hfg by (done || left). destruct (f a s) as [s1|] eqn:E; simpl; [|done].
  apply IH.
  - intros b t Hb. apply Hfg. by right.
  - intros b t t' Hb. apply Hp. by right.
  - eapply Hp; [left|done..].
Qed.

(** Reading a node's name gives the same in a framed heap. *)
Lemma deref_Name_framed h h' p :
  framed h h' → Name <$> deref h' p = Name <$> deref h p.
Proof.
  intros Hf. destruct p as [a|]; [|done]. simpl.
  apply Forall2_lookup with (i := a) in Hf.
  destruct Hf as [n n' Hs|]; [|done]. simpl. rewrite Hs. done.
Qed.

Lemma findEnd_framed h h' rel p ft :
  framed h h' → findEnd h' rel p ft = findEnd h rel p ft.
Proof.
  intros Hf. unfold findEnd. pose proof (deref_Name_framed h h' p Hf) as Hn.
  destruct (deref h' p) as [n'|], (deref h p) as [n|]; simpl in *; try done.
  injection Hn as ->. done.
Qed.

Lemma findEnds_framed h h' rel l :
  framed h h' → findEnds h' rel l = findEnds h rel l.
Proof.
  intros Hf. unfold findEnds. apply forEach_ext. intros p ft _.
  by apply findEnd_framed.
Qed.

Lemma resolves_framed h h' rel l :
  framed h h' → resolves h' l rel = resolves h l rel.
Proof. intros Hf. unfold resolves. by rewrite (findEnds_framed h h'). Qed.

(** A relation with a missing end is skipped: no error, no write. *)
Lemma attract_dangling k l rel h :
  Forall (validPtr h) l → resolves h l rel = false → attract k l rel h = Some h.
Proof.
  intros Hl. unfold resolves, attract.
  destruct (findEnds_is_Some h rel l Hl) as [[f t] ->]. simpl.
  by destruct f, t.
Qed.

Lemma attractionPass_dropDangling k l rels h0 h :
  Forall (validPtr h0) l → framed h0 h →
  attractionPass k l rels h =
  attractionPass k l (filter (λ rel, resolves h0 l rel = true) rels) h.
Proof.
  intros Hl Hf. unfold attractionPass. rewrite forEach_filter.
  apply (forEach_ext_inv (framed h0)); [| |done].
  - intros rel s _ Hs. destruct (decide (resolves h0 l rel = true)) as [|Hr]; [done|].
    apply attract_dangling; [by eapply valid_framed|].
    rewrite (resolves_framed h0 s) by done. by destruct (resolves h0 l rel).
  - intros rel s s' _ Hs Ha. eapply framed_trans; [done|].
    by apply attract_updates in Ha as [? _].
Qed.

Lemma simulation_dropDangling n k l rels h0 :
  Forall (validPtr h0) l →
  repeatN n (iteration k l rels) h0 =
  repeatN n (iteration k l (filter (λ rel, resolves h0 l rel = true) rels)) h0.
Proof.
  intros Hl. apply (repeatN_ext (framed h0)); [| |apply framed_refl].
  - intros s Hs. unfold iteration.
    destruct (repulsionPass k l s) as [s1|] eqn:E; [|done]. simpl.
    apply attractionPass_dropDangling; [done|].
    eapply framed_trans; [done|]. by apply repulsionPass_updates in E as [? _].
  - intros s s' Hs Hi. eapply framed_trans; [done|].
    by apply iteration_updates in Hi as [? _].
Qed.

Lemma buildAllNodes_withRelations d rels h r :
  buildAllNodes (withRelations d rels) h r = buildAllNodes d h r.
Proof. by rewrite !buildAllNodes_spec. Qed.

(** In a world whose class pointers can be read, a relation with an end
    outside the working node set is skipped in every iteration, with no
    error and no write to the heap; the layout completes, with exactly the
    cells, hence exactly the positions, of the layout of the same world
    without these relations. *)
Lemma dangling_relations_are_skipped w :
  wellFormed w →
  (∀ k rel h,
     framed (buildAllNodes (diagram w) (heap w) (rand w)).1.2 h →
     resolves (buildAllNodes (diagram w) (heap w) (rand w)).1.2
              (buildAllNodes (diagram w) (heap w) (rand w)).1.1 rel = false →
     attract k (buildAllNodes (diagram w) (heap w) (rand w)).1.1 rel h = Some h) ∧
  is_Some (calculateLayout w) ∧
  heap <$> calculateLayout w = heap <$> calculateLayout (dropDangling w).
Proof.
  intros Hw.
  destruct (buildAllNodes (diagram w) (heap w) (rand w)) as [[l h0] r'] eqn:E.
  pose proof (buildAllNodes_valid _ _ _ _ _ _ E Hw) as Hl. cbn [fst snd].
  split_and!.
  - intros k rel h Hf Hr. apply attract_dangling; [by eapply valid_framed|].
    by rewrite (resolves_framed h0 h).
  - by apply calculateLayout_total.
  - rewrite !calculateLayout_unfold. cbv zeta. unfold dropDangling.
    cbn [diagram heap rand]. rewrite buildAllNodes_withRelations, E. cbn [fst snd].
    change (idealLength (withRelations (diagram w) ?rels)) with (idealLength (diagram w)).
    cbn [Relations withRelations].
    rewrite (simulation_dropDangling iterations _ l (Relations (diagram w)) h0 Hl).
    by destruct (repeatN _ _ _).
Qed.

(** C6.  The layout of [type A { b: B  z: Z }  type B {}  scalar S], with
    the draws 1/2, 1/4 for the scalar.  The relation from [A] to the
    undefined [Z] dangles and is skipped, with no error and no write, and
    the layout completes with the heap it has without that relation.  But
    it does not end with finite positions: the relation from [A] to [B],
    whose two ends are found, pulls them past each other by more than
    their distance in every iteration; the positions are finite through
    the ninth iteration, those of [A] and [B] are NaN after the tenth, and
    all three are NaN at the end.  The dangling relation has no part in
    it: the same schema without the field [z] ends with NaN in every
    position too, and so do two nodes five units apart joined by one
    relation, while the schema with the dangling relation alone ends with
    finite positions, those of its layout without any relation.  So the
    claim, as stated, fails for this schema. *)
Theorem dangling_layout_is_not_finite :
  Relations (diagram (worldOf "drawio" danglingSchema sampleRand))
    = [mkRelation "A" "B" "uses" ""; mkRelation "A" "Z" "uses" ""] ∧
  layoutView (workingHeap (worldOf "drawio" danglingSchema sampleRand))
    = [("A", mkPosition 0 0); ("B", mkPosition 0 0); ("S", mkPosition 960 270)] ∧
  resolves (workingHeap (worldOf "drawio" danglingSchema sampleRand))
    (workingSet (worldOf "drawio" danglingSchema sampleRand))
    (mkRelation "A" "Z" "uses" "") = false ∧
  resolves (workingHeap (worldOf "drawio" danglingSchema sampleRand))
    (workingSet (worldOf "drawio" danglingSchema sampleRand))
    (mkRelation "A" "B" "uses" "") = true ∧
  attract (idealLength (diagram (worldOf "drawio" danglingSchema sampleRand)))
    (workingSet (worldOf "drawio" danglingSchema sampleRand))
    (mkRelation "A" "Z" "uses" "")
    (workingHeap (worldOf "drawio" danglingSchema sampleRand))
    = Some (workingHeap (worldOf "drawio" danglingSchema sampleRand)) ∧
  heap <$> calculateLayout (worldOf "drawio" danglingSchema sampleRand)
    = heap <$> calculateLayout (dropDangling (worldOf "drawio" danglingSchema sampleRand)) ∧
  finiteAfter 9 (worldOf "drawio" danglingSchema sampleRand) = Some true ∧
  finiteAfter 10 (worldOf "drawio" danglingSchema sampleRand) = Some false ∧
  endsAllNaN (worldOf "drawio" danglingSchema sampleRand) = true ∧
  endsAllNaN (worldOf "drawio" edgeOnly sampleRand) = true ∧
  endsAllNaN (mkWorld pairDiagram sampleHeap sampleRand) = true ∧
  endsAllFinite (worldOf "drawio" danglingOnly sampleRand) = true ∧
  heap <$> calculateLayout (worldOf "drawio" danglingOnly sampleRand)
    = heap <$> calculateLayout (dropDangling (worldOf "drawio" danglingOnly sampleRand)) ∧
  Relations (diagram (dropDangling (worldOf "drawio" danglingOnly sampleRand))) = [] ∧
  ¬ danglingClaim (worldOf "drawio" danglingSchema sampleRand).
Proof.
  split_and!; try (vm_compute; reflexivity).
  intros H.
  destruct (H (mkRelation "A" "Z" "uses" "")) as (_ & w' & E & F).
  - vm_compute. right. left.
  - vm_compute. reflexivity.
  - assert (match calculateLayout (worldOf "drawio" danglingSchema sampleRand) with
            | Some w1 => allFinite (heap w1)
            | None => false
            end = false) as C by (vm_compute; reflexivity).
    rewrite E, F in C. discriminate C.
Qed.

(** ** The random source *)

Lemma agree_le n m r1 r2 : n ≤ m → agree m r1 r2 → agree n r1 r2.
Proof. intros Hle H i Hi. apply H. lia. Qed.

Lemma agree_skip n m r1 r2 : agree (n + m) r1 r2 → agree m (skip n r1) (skip n r2).
Proof.
  intros H i Hi. unfold skip. cbn [draws cursor].
  rewrite <- !Nat.add_assoc. apply H. lia.
Qed.

Lemma freshScalars_agree d ss r1 r2 :
  agree (2 * length ss) r1 r2 →
  imap (freshScalar d r1) ss = imap (freshScalar d r2) ss.
Proof.
  intros H. apply imap_ext. intros i x Hx. apply lookup_lt_Some in Hx.
  unfold freshScalar. rewrite <- !Nat.add_assoc, !H by lia. done.
Qed.

Lemma freshDirectives_agree d ds r1 r2 :
  agree (2 * length ds) r1 r2 →
  imap (freshDirective d r1) ds = imap (freshDirective d r2) ds.
Proof.
  intros H. apply imap_ext. intros i x Hx. apply lookup_lt_Some in Hx.
  unfold freshDirective. rewrite <- !Nat.add_assoc, !H by lia. done.
Qed.

(** The working node set reads two draws per scalar and per directive, and
    nothing else of the source. *)
Lemma buildAllNodes_agree d h r1 r2 :
  agree (2 * placed d) r1 r2 →
  (buildAllNodes d h r1).1 = (buildAllNodes d h r2).1.
Proof.
  intros H. rewrite !buildAllNodes_spec. cbn [fst]. unfold placed in H.
  rewrite (freshScalars_agree d (Scalars d) r1 r2) by (eapply agree_le; [|done]; lia).
  rewrite (freshDirectives_agree d (Directives d)
             (skip (2 * length (Scalars d)) r1) (skip (2 * length (Scalars d)) r2));
    [done|].
  apply agree_skip. eapply agree_le; [|done]. lia.
Qed.

Lemma calculateLayout_rand w w' :
  calculateLayout w = Some w' →
  diagram w' = diagram w ∧ rand w' = skip (2 * placed (diagram w)) (rand w).
Proof.
  rewrite calculateLayout_unfold. cbv zeta. rewrite buildAllNodes_spec. cbn [fst snd].
  destruct (repeatN _ _ _) as [h'|]; [|done]. simpl. by intros [= <-].
Qed.

Lemma calculateLayout_agree d h r1 r2 :
  agree (2 * placed d) r1 r2 →
  heap <$> calculateLayout (mkWorld d h r1) = heap <$> calculateLayout (mkWorld d h r2).
Proof.
  intros H. rewrite !calculateLayout_unfold. cbv zeta. cbn [diagram heap rand].
  pose proof (buildAllNodes_agree d h r1 r2 H) as E.
  destruct (buildAllNodes d h r1) as [[l1 h1] r1'], (buildAllNodes d h r2) as [[l2 h2] r2'].
  cbn [fst snd] in *. injection E as -> ->.
  by destruct (repeatN _ _ _).
Qed.

(** Two invocations that differ in the random source only, and whose
    sources agree on the draws the invocation takes. *)
Lemma calculateLayout_withRand m w r2 :
  agree (2 * placed (diagram w) + m) (rand w) r2 →
  match calculateLayout w, calculateLayout (withRand r2 w) with
  | Some w1, Some w2 =>
      w2 = withRand (rand w2) w1 ∧ agree m (rand w1) (rand w2)
  | None, None => True
  | _, _ => False
  end.
Proof.
  intros H. destruct w as [d h r1]. unfold withRand. cbn [diagram heap rand] in *.
  assert (agree (2 * placed d) r1 r2) as H' by (eapply agree_le; [|exact H]; lia).
  pose proof (calculateLayout_agree d h r1 r2 H') as E.
  destruct (calculateLayout (mkWorld d h r1)) as [w1|] eqn:E1,
           (calculateLayout (mkWorld d h r2)) as [w2|] eqn:E2; try done.
  apply calculateLayout_rand in E1 as [D1 R1], E2 as [D2 R2].
  cbn [diagram rand] in *. injection E as E. split.
  - destruct w1, w2. cbn in *. congruence.
  - rewrite R1, R2. by apply agree_skip.
Qed.

Lemma calculateLayout_withRand_eq w r2 :
  agree (2 * placed (diagram w)) (rand w) r2 →
  calculateLayout (withRand r2 w) =
  withRand (skip (2 * placed (diagram w)) r2) <$> calculateLayout w.
Proof.
  intros H. pose proof (calculateLayout_withRand 0 w r2) as C.
  rewrite Nat.add_0_r in C. specialize (C H).
  destruct (calculateLayout w) as [w1|] eqn:E1,
           (calculateLayout (withRand r2 w)) as [w2|] eqn:E2; try done.
  destruct C as [-> _]. simpl. do 2 f_equal.
  by apply calculateLayout_rand in E2 as [_ ->].
Qed.

(** The three invocations of [generateDrawIOXML] take six draws per scalar
    and per directive; two sources that agree on them give the same file
    and the same heap. *)
Lemma generateDrawIOXML_withRand w r2 :
  agree (6 * placed (diagram w)) (rand w) r2 →
  (λ x, (x.1, heap x.2)) <$> generateDrawIOXML (withRand r2 w) =
  (λ x, (x.1, heap x.2)) <$> generateDrawIOXML w.
Proof.
  intros H. unfold generateDrawIOXML.
  rewrite calculateLayout_withRand_eq by (eapply agree_le; [|exact H]; lia).
  destruct (calculateLayout w) as [w1|] eqn:E1; [|done].
  apply calculateLayout_rand in E1 as [D1 R1].
  cbn [fmap option_fmap option_map mbind option_bind withRand diagram heap rand].
  destruct (forEach (classCells (heap w1)) (Classes (diagram w1)) _) as [cells1|]; [|done].
  cbn [mbind option_bind].
  destruct (fold_left _ (Scalars (diagram w1)) _) as [classes2 h2].
  set (w1' := mkWorld (withClasses (diagram w1) classes2) h2 (rand w1)).
  change (mkWorld (withClasses (diagram w1) classes2) h2 ?r) with (withRand r w1').
  assert (placed (diagram w1') = placed (diagram w)) as P1 by (by rewrite <- D1).
  rewrite calculateLayout_withRand_eq; last first.
  { rewrite P1. subst w1'. cbn [rand]. rewrite R1. apply agree_skip.
    eapply agree_le; [|exact H]. lia. }
  destruct (calculateLayout w1') as [w2|] eqn:E2; [|done].
  apply calculateLayout_rand in E2 as [D2 R2].
  cbn [fmap option_fmap option_map mbind option_bind withRand diagram heap rand].
  destruct (fold_left _ (Directives (diagram w2)) _) as [classes3 h3].
  set (w2' := mkWorld (withClasses (diagram w2) classes3) h3 (rand w2)).
  change (mkWorld (withClasses (diagram w2) classes3) h3 ?r) with (withRand r w2').
  assert (placed (diagram w2') = placed (diagram w)) as P2.
  { subst w2'. cbn [diagram]. rewrite D2. done. }
  rewrite calculateLayout_withRand_eq; last first.
  { rewrite P2. subst w2'. cbn [rand]. rewrite R2, P1. subst w1'. cbn [rand].
    rewrite R1. apply agree_skip, agree_skip. eapply agree_le; [|exact H]. lia. }
  destruct (calculateLayout w2') as [w3|] eqn:E3; [|done].
  reflexivity.
Qed.

(** [processSchema] neither reads nor moves the random source. *)
Lemma processDefinition_withRand doc r w def :
  processDefinition doc (withRand r w) def = withRand r (processDefinition doc w def).
Proof. destruct def; reflexivity. Qed.

Lemma processSchema_withRand doc r w :
  processSchema doc (withRand r w) = withRand r (processSchema doc w).
Proof.
  unfold processSchema. revert w.
  induction (ast.Definitions doc) as [|def defs IH]; intros w; [done|].
  cbn [fold_left]. by rewrite processDefinition_withRand, IH.
Qed.

Lemma worldOf_withRand formatFlag doc r1 r2 :
  worldOf formatFlag doc r2 = withRand r2 (worldOf formatFlag doc r1).
Proof.
  unfold worldOf. by rewrite <- processSchema_withRand.
Qed.

Lemma processSchema_rand doc w : rand (processSchema doc w) = rand w.
Proof.
  unfold processSchema. revert w.
  induction (ast.Definitions doc) as [|def defs IH]; intros w; [done|].
  cbn [fold_left]. rewrite IH. by destruct def.
Qed.

(** C9.  The positions are a function of the inputs and of the draws
    taken from the random source, two per scalar and per directive in each
    invocation of [calculateLayout]: two runs on the same diagram and heap
    whose sources give the same draws end with the same cells, position by
    position.  The same holds for the three invocations of
    [generateDrawIOXML], which returns the same file and leaves the same
    heap, and for the whole program on a parsed schema. *)
Theorem layout_is_deterministic :
  (∀ d h r1 r2,
     agree (2 * placed d) r1 r2 →
     heap <$> calculateLayout (mkWorld d h r1) =
     heap <$> calculateLayout (mkWorld d h r2)) ∧
  (∀ d h r1 r2,
     agree (6 * placed d) r1 r2 →
     (λ x, (x.1, heap x.2)) <$> generateDrawIOXML (mkWorld d h r1) =
     (λ x, (x.1, heap x.2)) <$> generateDrawIOXML (mkWorld d h r2)) ∧
  (∀ formatFlag doc r1 r2,
     agree (6 * placed (diagram (worldOf formatFlag doc r1))) r1 r2 →
     (λ x, (x.1, heap x.2)) <$> main formatFlag doc r1 =
     (λ x, (x.1, heap x.2)) <$> main formatFlag doc r2).
Proof.
  split_and!.
  - apply calculateLayout_agree.
  - intros d h r1 r2 H. symmetry.
    apply (generateDrawIOXML_withRand (mkWorld d h r1) r2 H).
  - intros formatFlag doc r1 r2 H. unfold main. fold (worldOf formatFlag doc r1).
    fold (worldOf formatFlag doc r2).
    rewrite (worldOf_withRand formatFlag doc r1 r2).
    set (w := worldOf formatFlag doc r1) in *.
    assert (rand w = r1) as Hr.
    { subst w. unfold worldOf. rewrite processSchema_rand. unfold initialWorld.
      by destruct (String.eqb formatFlag "drawio"). }
    unfold outputDiagram. cbn [withRand diagram heap].
    destruct (decide (format (diagram w) = DrawIO)) as [Hd|Hd].
    + change (mkWorld (diagram w) (heap w) r2) with (withRand r2 w).
      rewrite <- Hr in H.
      pose proof (generateDrawIOXML_withRand w r2 H) as G.
      destruct (generateDrawIOXML (withRand r2 w)) as [[f2 w2]|],
               (generateDrawIOXML w) as [[f1 w1]|]; try done.
      cbn in G |- *. by injection G as -> ->.
    + by destruct (forEach _ _ _).
Qed.

Lemma layout_is_deterministic_witness :
  heap <$> calculateLayout
    (mkWorld (diagram (worldOf "drawio" smallSchema sampleRand))
       (heap (worldOf "drawio" smallSchema sampleRand)) sampleRand) =
  heap <$> calculateLayout
    (mkWorld (diagram (worldOf "drawio" smallSchema sampleRand))
       (heap (worldOf "drawio" smallSchema sampleRand)) laterRand).
Proof.
  apply (proj1 layout_is_deterministic).
  intros i Hi. do 4 (destruct i as [|i]; [reflexivity|]). cbn in Hi. lia.
Defined.

(** ** The mermaid branch *)

Lemma mermaidClass_erase h p out :
  mermaidClass h p out =
  class ← eraseNode <$> deref h p;
  Some (out +:+ "class " +:+ Name class +:+ " {" +:+ nl
        +:+ String.concat "" (map mermaidField (Fields class))
        +:+ "}" +:+ nl).
Proof. unfold mermaidClass. by destruct (deref h p). Qed.

Lemma mermaidClasses_content h1 h2 ps1 ps2 out :
  map (λ p, eraseNode <$> deref h1 p) ps1 = map (λ p, eraseNode <$> deref h2 p) ps2 →
  forEach (mermaidClass h1) ps1 out = forEach (mermaidClass h2) ps2 out.
Proof.
  revert ps2 out. induction ps1 as [|p1 ps1 IH]; intros [|p2 ps2] out; try done.
  cbn [map forEach]. intros [= E1 E]. rewrite !mermaidClass_erase, E1.
  destruct (eraseNode <$> deref h2 p2); simpl; [by apply IH | done].
Qed.

Lemma mermaidScalars_content ss1 ss2 :
  map eraseScalar ss1 = map eraseScalar ss2 →
  map mermaidScalar ss1 = map mermaidScalar ss2.
Proof.
  intros E. apply (f_equal (map mermaidScalar)) in E.
  by rewrite !map_map in E.
Qed.

Lemma mermaidDirectives_content ds1 ds2 :
  map eraseDirective ds1 = map eraseDirective ds2 →
  map mermaidDirective ds1 = map mermaidDirective ds2.
Proof.
  intros E. apply (f_equal (map mermaidDirective)) in E.
  by rewrite !map_map in E.
Qed.

Lemma outputDiagram_mermaid w :
  format (diagram w) ≠ DrawIO →
  outputDiagram w =
  out ← forEach (mermaidClass (heap w)) (Classes (diagram w))
          ("classDiagram" +:+ nl
           +:+ String.concat "" (map mermaidDirective (Directives (diagram w)))
           +:+ String.concat "" (map mermaidScalar (Scalars (diagram w))));
  Some (Text (out +:+ String.concat "" (map mermaidRelation (Relations (diagram w)))), w).
Proof. intros Hf. unfold outputDiagram. by rewrite decide_False. Qed.

(** The class pointers [processSchema] stores can be read. *)
Lemma processSchema_wellFormed doc w :
  wellFormed w → wellFormed (processSchema doc w).
Proof.
  unfold processSchema. revert w.
  induction (ast.Definitions doc) as [|def defs IH]; intros w Hw; [done|].
  cbn [fold_left]. apply IH. unfold wellFormed in *.
  destruct def; cbn [processDefinition alloc diagram heap Classes withLists]; try done.
  rewrite Forall_app. split.
  - eapply Forall_impl; [done|]. intros p. apply validPtr_app.
  - apply Forall_singleton. unfold validPtr. simpl.
    rewrite lookup_app_r, Nat.sub_diag by lia. by eexists.
Qed.

Lemma processSchema_format doc w :
  format (diagram (processSchema doc w)) = format (diagram w).
Proof.
  unfold processSchema. revert w.
  induction (ast.Definitions doc) as [|def defs IH]; intros w; [done|].
  cbn [fold_left]. rewrite IH. by destruct def.
Qed.

Lemma mermaidClasses_total h ps out :
  Forall (validPtr h) ps → is_Some (forEach (mermaidClass h) ps out).
Proof.
  intros Hp.
  destruct (forEach_total (λ _, True) (mermaidClass h) ps) with (s := out)
    as (out' & -> & _); [|done..].
  intros p s Hin _. rewrite Forall_forall in Hp. destruct (Hp p Hin) as [n Hn].
  unfold mermaidClass. rewrite Hn. simpl. eauto.
Qed.

(** C10.  When the format is not [DrawIO], [outputDiagram] prints a text
    and leaves the world as it found it: the heap, with every position,
    and the random source, with its cursor; the layout engine, which
    writes the one and moves the other, is not invoked.  The text is the
    same for two worlds with the same content, whatever their positions,
    canvas and random sources.  For the whole program: with a format flag
    other than ["drawio"] a parsed schema is always printed, and the text
    does not depend on the random source. *)
Theorem mermaid_ignores_layout :
  (∀ w out w',
     format (diagram w) ≠ DrawIO → outputDiagram w = Some (out, w') →
     w' = w ∧ ∃ text, out = Text text) ∧
  (∀ w1 w2,
     format (diagram w1) ≠ DrawIO → format (diagram w2) ≠ DrawIO →
     content w1 = content w2 →
     fst <$> outputDiagram w1 = fst <$> outputDiagram w2) ∧
  (∀ formatFlag doc r1 r2,
     formatFlag ≠ "drawio" →
     is_Some (main formatFlag doc r1) ∧
     fst <$> main formatFlag doc r1 = fst <$> main formatFlag doc r2).
Proof.
  split_and!.
  - intros w out w' Hf. rewrite outputDiagram_mermaid by done.
    destruct (forEach _ _ _) as [text|]; [|done]. simpl. intros [= <- <-]. eauto.
  - intros w1 w2 H1 H2 [= Ec Er Es Ed]. rewrite !outputDiagram_mermaid by done.
    rewrite (mermaidClasses_content _ _ _ _ _ Ec), Er.
    rewrite (mermaidScalars_content _ _ Es), (mermaidDirectives_content _ _ Ed).
    by destruct (forEach _ _ _).
  - intros formatFlag doc r1 r2 Hf. unfold main.
    fold (worldOf formatFlag doc r1). fold (worldOf formatFlag doc r2).
    assert (∀ r, format (diagram (worldOf formatFlag doc r)) ≠ DrawIO) as Hm.
    { intros r. unfold worldOf. rewrite processSchema_format. unfold initialWorld.
      destruct (String.eqb_spec formatFlag "drawio"); [done|]. cbn. done. }
    rewrite !outputDiagram_mermaid by done. split.
    + destruct (mermaidClasses_total (heap (worldOf formatFlag doc r1))
                  (Classes (diagram (worldOf formatFlag doc r1)))
                  ("classDiagram" +:+ nl
                   +:+ String.concat ""
                         (map mermaidDirective (Directives (diagram (worldOf formatFlag doc r1))))
                   +:+ String.concat ""
                         (map mermaidScalar (Scalars (diagram (worldOf formatFlag doc r1))))))
        as [out ->]; [|done].
      apply processSchema_wellFormed. unfold initialWorld, wellFormed.
      by destruct (String.eqb formatFlag "drawio").
    + rewrite (worldOf_withRand formatFlag doc r1 r2).
      cbn [withRand diagram heap]. by destruct (forEach _ _ _).
Qed.

Lemma mermaid_ignores_layout_witness :
  is_Some (main "mermaid" smallSchema sampleRand) ∧
  fst <$> main "mermaid" smallSchema sampleRand
  = fst <$> main "mermaid" smallSchema otherRand.
Proof. apply (proj2 (proj2 mermaid_ignores_layout)). discriminate. Defined.

(** ** Coincident nodes *)

Lemma is_finite_cases x :
  is_finite x = true →
  (∃ s, Prim2SF x = S754_zero s) ∨ (∃ s m e, Prim2SF x = S754_finite s m e).
Proof.
  unfold is_finite, is_nan, is_infinity.
  rewrite !FloatAxioms.eqb_spec, abs_spec.
  change (Prim2SF infinity) with (S754_infinity false).
  destruct (Prim2SF x) as [s|s| |s m e]; intros H.
  - left. by exists s.
  - destruct s; discriminate H.
  - discriminate H.
  - right. by exists s, m, e.
Qed.

Lemma zero_mul_finite x :
  is_finite x = true → ∃ s, Prim2SF (0 * x) = S754_zero s.
Proof.
  intros H. rewrite mul_spec. change (Prim2SF 0) with (S754_zero false).
  destruct (is_finite_cases x H) as [[s ->]|(s & m & e & ->)]; simpl; eauto.
Qed.

Lemma zero_add_zero z s : Prim2SF z = S754_zero s → (0 + z = 0)%float.
Proof.
  intros H. apply Prim2SF_inj. rewrite add_spec, H.
  change (Prim2SF 0) with (S754_zero false). by destruct s.
Qed.

Lemma zero_sub_zero z s : Prim2SF z = S754_zero s → (0 - z = 0)%float.
Proof.
  intros H. apply Prim2SF_inj. rewrite sub_spec, H.
  change (Prim2SF 0) with (S754_zero false). by destruct s.
Qed.

(** Between two nodes at the origin the displacement is zero, the divisor
    is the floor, and the force has no direction. *)
Lemma repulsion_origin k :
  repulsion k zeroPosition zeroPosition =
  mkPosition (0 * ((k * k) / minDist)) (0 * ((k * k) / minDist)).
Proof. reflexivity. Qed.

Lemma attraction_origin k :
  attraction k zeroPosition zeroPosition =
  mkPosition (0 * ((minDist * minDist) / k)) (0 * ((minDist * minDist) / k)).
Proof. reflexivity. Qed.

Lemma plus_origin v s :
  Prim2SF v = S754_zero s → plus zeroPosition (mkPosition v v) = zeroPosition.
Proof. intros H. unfold plus, zeroPosition. cbn [X Y]. by rewrite (zero_add_zero v s). Qed.

Lemma minus_origin v s :
  Prim2SF v = S754_zero s → minus zeroPosition (mkPosition v v) = zeroPosition.
Proof. intros H. unfold minus, zeroPosition. cbn [X Y]. by rewrite (zero_sub_zero v s). Qed.

Lemma writePosition_id h p n :
  deref h p = Some n → writePosition h p (cPosition n) = Some h.
Proof.
  destruct p as [a|]; [|done]. simpl. intros Hn. unfold writePosition. simpl.
  rewrite Hn. simpl. f_equal. apply list_insert_id. rewrite Hn. by destruct n.
Qed.

Lemma allAtOrigin_deref h p n :
  allAtOrigin h → deref h p = Some n → cPosition n = zeroPosition.
Proof.
  intros Ho Hn. destruct p as [a|]; [|done]. simpl in Hn.
  by apply (Forall_lookup_1 _ _ _ _ Ho Hn).
Qed.

Lemma repel_origin k v u h :
  is_finite ((k * k) / minDist) = true →
  allAtOrigin h → validPtr h v → validPtr h u → repel k v u h = Some h.
Proof.
  intros Hk Ho [nv Hv] [nu Hu].
  destruct (decide (v = u)) as [->|Hne]; [unfold repel; by rewrite decide_True|].
  rewrite (repel_floorDist k v u h nv nu) by done.
  rewrite (allAtOrigin_deref h u nu), (allAtOrigin_deref h v nv) by done.
  rewrite repulsion_origin.
  destruct (zero_mul_finite _ Hk) as [s Hs]. rewrite (plus_origin _ s Hs).
  rewrite <- (allAtOrigin_deref h v nv) by done. by apply writePosition_id.
Qed.

Lemma pull_origin k f t h :
  is_finite ((minDist * minDist) / k) = true →
  allAtOrigin h → validPtr h f → validPtr h t → pull k f t h = Some h.
Proof.
  intros Hk Ho [nf Hf] [nt Ht]. rewrite (pull_floorDist k f t h nf nt) by done.
  rewrite (allAtOrigin_deref h f nf), (allAtOrigin_deref h t nt) by done.
  rewrite attraction_origin.
  destruct (zero_mul_finite _ Hk) as [s Hs].
  rewrite (minus_origin _ s Hs).
  rewrite <- (allAtOrigin_deref h f nf) at 1 by done.
  rewrite (writePosition_id h f nf Hf). cbn [mbind option_bind]. rewrite Ht.
  cbn [mbind option_bind].
  rewrite (allAtOrigin_deref h t nt), (plus_origin _ s Hs) by done.
  rewrite <- (allAtOrigin_deref h t nt) by done. by apply writePosition_id.
Qed.

Lemma forEach_id {A S : Type} (body : A → S → option S) l s :
  (∀ a, a ∈ l → body a s = Some s) → forEach body l s = Some s.
Proof.
  induction l as [|a l IH]; intros Hb; simpl; [done|].
  rewrite Hb by left. simpl. apply IH. intros b Hin. apply Hb. by right.
Qed.

Lemma repeatN_id {S : Type} (body : S → option S) n s :
  body s = Some s → repeatN n body s = Some s.
Proof. intros Hb. induction n as [|n IH]; simpl; [done|]. by rewrite Hb. Qed.

Lemma iteration_origin k l rels h :
  is_finite ((k * k) / minDist) = true →
  is_finite ((minDist * minDist) / k) = true →
  allAtOrigin h → Forall (validPtr h) l → iteration k l rels h = Some h.
Proof.
  intros Hk1 Hk2 Ho Hl. rewrite Forall_forall in Hl. unfold iteration.
  assert (repulsionPass k l h = Some h) as ->.
  { unfold repulsionPass. apply forEach_id. intros v Hv. apply forEach_id.
    intros u Hu. apply repel_origin; auto. }
  cbn [mbind option_bind]. unfold attractionPass. apply forEach_id. intros rel _.
  unfold attract. destruct (findEnds h rel l) as [[f t]|] eqn:E.
  - cbn [mbind option_bind]. apply findEnds_elem in E as [Hf Ht].
    destruct f as [f|]; [|done]. destruct t as [t|]; [|done].
    destruct Hf as [|[_ Hf]]; [done|]. destruct Ht as [|[_ Ht]]; [done|].
    by apply pull_origin.
  - destruct (findEnds_is_Some h rel l) as [ft Hft]; [by apply Forall_forall|].
    congruence.
Qed.

(** C2, as the code has it.  Nodes that start on top of each other are
    not separated: between two nodes at the same point the displacement is
    zero, the divisor is the floor 0.1, and the force [k² / 0.1] is
    multiplied by a zero direction.  In a world with no scalar and no
    directive, whose class nodes are all at the origin (as [processSchema]
    makes them), one invocation of [calculateLayout] changes nothing,
    however many nodes and relations there are, as long as the two force
    magnitudes at the floored distance are finite: after the hundred
    iterations every node is still at the origin, at distance zero from
    every other. *)
Theorem coincident_nodes_are_not_separated w :
  wellFormed w →
  Scalars (diagram w) = [] → Directives (diagram w) = [] →
  allAtOrigin (heap w) →
  is_finite ((idealLength (diagram w) * idealLength (diagram w)) / minDist) = true →
  is_finite ((minDist * minDist) / idealLength (diagram w)) = true →
  calculateLayout w = Some w.
Proof.
  intros Hw Hs Hd Ho Hk1 Hk2. rewrite calculateLayout_unfold. cbv zeta.
  rewrite buildAllNodes_spec, Hs, Hd.
  cbn [fst snd length seq fmap list_fmap imap app]. rewrite !app_nil_r.
  rewrite repeatN_id by (by apply iteration_origin).
  cbn [mbind option_bind]. destruct w as [d h [f c]]. unfold skip. simpl.
  by rewrite Nat.add_0_r.
Qed.

(** The failing input of C2: [type A {}  type B {}].  Both class nodes
    start at the origin and both are there after the layout. *)
Lemma coincident_nodes_are_not_separated_witness :
  calculateLayout (worldOf "drawio" twoTypes sampleRand)
  = Some (worldOf "drawio" twoTypes sampleRand).
Proof.
  apply coincident_nodes_are_not_separated.
  - repeat constructor; eexists; reflexivity.
  - reflexivity.
  - reflexivity.
  - repeat constructor.
  - vm_compute. reflexivity.
  - vm_compute. reflexivity.
Defined.

Example twoTypes_positions :
  (λ w, cPosition <$> heap w) <$> calculateLayout (worldOf "drawio" twoTypes sampleRand)
  = Some [zeroPosition; zeroPosition].
Proof. vm_compute. reflexivity. Qed.

(** ** Initial positions *)

Lemma processSchema_origin doc w :
  allAtOrigin (heap w) → allAtOrigin (heap (processSchema doc w)).
Proof.
  unfold processSchema. revert w.
  induction (ast.Definitions doc) as [|def defs IH]; intros w Hw; [done|].
  cbn [fold_left]. apply IH. unfold allAtOrigin in *.
  destruct def; cbn [processDefinition alloc heap]; try done.
  apply Forall_app. split; [done|]. by apply Forall_singleton.
Qed.

Lemma worldOf_wellFormed formatFlag doc r : wellFormed (worldOf formatFlag doc r).
Proof.
  apply processSchema_wellFormed. unfold initialWorld, wellFormed.
  by destruct (String.eqb formatFlag "drawio").
Qed.

Lemma worldOf_origin formatFlag doc r : allAtOrigin (heap (worldOf formatFlag doc r)).
Proof. apply processSchema_origin. constructor. Qed.

(** C1, as the code has it.  The class nodes are not placed at random.
    [processSchema] creates every class node with the zero position, and
    [calculateLayout] puts the class pointers into the working node set
    as they are: only the nodes it allocates for the scalars and the
    directives get two draws each ([buildAllNodes_spec]).  So in the first
    layout of a parsed schema every class node enters the simulation at
    the origin, whatever the random source holds. *)
Theorem class_nodes_start_at_the_origin formatFlag doc r :
  Forall
    (λ p, ∃ n,
       deref (buildAllNodes (diagram (worldOf formatFlag doc r))
                (heap (worldOf formatFlag doc r))
                (rand (worldOf formatFlag doc r))).1.2 p = Some n ∧
       cPosition n = zeroPosition)
    (Classes (diagram (worldOf formatFlag doc r))).
Proof.
  pose proof (worldOf_wellFormed formatFlag doc r) as Hw.
  pose proof (worldOf_origin formatFlag doc r) as Ho.
  set (w := worldOf formatFlag doc r) in *.
  rewrite buildAllNodes_spec. cbn [fst snd].
  eapply Forall_impl; [exact Hw|]. intros p [n Hn]. exists n. split.
  - destruct p as [a|]; [|done]. simpl in *. by apply lookup_app_l_Some.
  - by eapply allAtOrigin_deref.
Qed.

(** The failing input of C1: [type A {}  type B {}], any random source.
    The working node set of the first layout is the two class nodes, both
    at the origin, and no draw was taken. *)
Example twoTypes_working_set r :
  buildAllNodes (diagram (worldOf "drawio" twoTypes r))
    (heap (worldOf "drawio" twoTypes r)) (rand (worldOf "drawio" twoTypes r))
  = ([Some 0; Some 1],
     [mkClassNode "cA" "A" [] zeroPosition 0 0; mkClassNode "cB" "B" [] zeroPosition 0 0],
     r).
Proof. reflexivity. Qed.

(** ** The cells of the draw.io file *)

Lemma generateDrawIOXML_cells w f w' :
  generateDrawIOXML w = Some (f, w') →
  ∃ w1 cells1 edges,
    calculateLayout w = Some w1 ∧
    forEach (classCells (heap w1)) (Classes (diagram w))
      [ mkMxCell "0" "" "" "" "" "" "" "" None;
        mkMxCell "1" "" "" "0" "" "" "" "" None ] = Some cells1 ∧
    fileCells f =
      cells1 ++ edges
      ++ map scalarCell (Scalars (diagram w))
      ++ concat (map directiveCells (Directives (diagram w))).
Proof.
  unfold generateDrawIOXML.
  destruct (calculateLayout w) as [w1|] eqn:E1; [|done].
  apply calculateLayout_rand in E1 as [D1 _]. cbn [mbind option_bind].
  destruct (forEach (classCells (heap w1)) (Classes (diagram w1)) _) as [cells1|] eqn:C1;
    [|done].
  cbn [mbind option_bind].
  destruct (fold_left _ (Scalars (diagram w1)) _) as [classes2 h2].
  destruct (calculateLayout _) as [w2|] eqn:E2; [|done].
  apply calculateLayout_rand in E2 as [D2 _]. cbn [mbind option_bind diagram] in *.
  destruct (fold_left _ (Directives (diagram w2)) _) as [classes3 h3].
  destruct (calculateLayout _) as [w3|] eqn:E3; [|done].
  apply calculateLayout_rand in E3 as [D3 _]. cbn [mbind option_bind diagram] in *.
  intros [= <- <-]. exists w1, cells1, (imap edgeCell (Relations (diagram w1))).
  rewrite <- D1. split; [done|]. split; [done|].
  unfold fileCells. cbn [fileDiagram Model Root Cells].
  rewrite D3, D2. cbn [withClasses Scalars Directives]. by rewrite <- !app_assoc.
Qed.

(** C3, as the code has it.  The cells of the classes carry the positions
    the first invocation of the simulation computed ([classCells] reads
    them from the heap it wrote).  The cells of the scalars and of the
    directives do not: they carry the positions stored in the scalar and
    directive records of the diagram, which no invocation writes (the
    simulation works on cells it allocates itself, C8).  For the schema
    [scalar Date] the file shows the scalar at (0, 0), while the four nodes
    the three invocations simulated for it all ended elsewhere, at finite
    positions. *)
Theorem scalar_and_directive_cells_ignore_the_layout :
  (∀ w f w',
     generateDrawIOXML w = Some (f, w') →
     ∃ w1 cells1 edges,
       calculateLayout w = Some w1 ∧
       forEach (classCells (heap w1)) (Classes (diagram w))
         [ mkMxCell "0" "" "" "" "" "" "" "" None;
           mkMxCell "1" "" "" "0" "" "" "" "" None ] = Some cells1 ∧
       fileCells f =
         cells1 ++ edges
         ++ map scalarCell (Scalars (diagram w))
         ++ concat (map directiveCells (Directives (diagram w)))) ∧
  cellLeftAtOrigin "scalar_Date" 4 (main "drawio" oneScalar sampleRand) = true.
Proof.
  split.
  - apply generateDrawIOXML_cells.
  - vm_compute. reflexivity.
Qed.

Lemma scalar_and_directive_cells_ignore_the_layout_witness :
  ∃ f w', generateDrawIOXML (worldOf "drawio" smallSchema sampleRand) = Some (f, w') ∧
    ∃ w1 cells1 edges,
      calculateLayout (worldOf "drawio" smallSchema sampleRand) = Some w1 ∧
      forEach (classCells (heap w1))
        (Classes (diagram (worldOf "drawio" smallSchema sampleRand)))
        [ mkMxCell "0" "" "" "" "" "" "" "" None;
          mkMxCell "1" "" "" "0" "" "" "" "" None ] = Some cells1 ∧
      fileCells f =
        cells1 ++ edges
        ++ map scalarCell (Scalars (diagram (worldOf "drawio" smallSchema sampleRand)))
        ++ concat (map directiveCells
                     (Directives (diagram (worldOf "drawio" smallSchema sampleRand)))).
Proof.
  destruct (generateDrawIOXML (worldOf "drawio" smallSchema sampleRand))
    as [[f w']|] eqn:E.
  - exists f, w'. split; [reflexivity|].
    exact (proj1 scalar_and_directive_cells_ignore_the_layout _ _ _ E).
  - vm_compute in E. discriminate E.
Defined.

(** ** The theorems at sample inputs *)

Lemma distance_floor_in_both_passes_witness :
  is_Some (calculateLayout (worldOf "drawio" smallSchema sampleRand)).
Proof.
  apply (proj2 (proj2 (proj2 (proj2 (proj2 distance_floor_in_both_passes))))).
  repeat constructor; eexists; reflexivity.
Defined.


(** * Further properties of the code *)

(** ** processSchema in closed form *)

Lemma processDefinition_closed doc w def :
  processDefinition doc w def =
  mkWorld
    (withLists (diagram w)
       (Classes (diagram w)
          ++ (Some <$> seq (length (heap w)) (length (option_list (classOf def)))))
       (Relations (diagram w) ++ relationsOf doc def)
       (Scalars (diagram w) ++ option_list (scalarOf def))
       (Directives (diagram w) ++ option_list (directiveOf def)))
    (heap w ++ option_list (classOf def)) (rand w).
Proof.
  destruct w as [[cs rs ss ds f mw mh] h r].
  destruct def; cbn; rewrite ?app_nil_r; reflexivity.
Qed.

Lemma processSchema_closed_defs doc defs w :
  fold_left (processDefinition doc) defs w =
  mkWorld
    (withLists (diagram w)
       (Classes (diagram w)
          ++ (Some <$> seq (length (heap w)) (length (omap classOf defs))))
       (Relations (diagram w) ++ concat (map (relationsOf doc) defs))
       (Scalars (diagram w) ++ omap scalarOf defs)
       (Directives (diagram w) ++ omap directiveOf defs))
    (heap w ++ omap classOf defs) (rand w).
Proof.
  revert w. induction defs as [|def defs IH]; intros w.
  - destruct w as [[cs rs ss ds f mw mh] h r]. cbn. by rewrite !app_nil_r.
  - cbn [fold_left]. rewrite IH, processDefinition_closed.
    cbn [diagram heap rand withLists Classes Relations Scalars Directives format
         maxWidth maxHeight map concat].
    rewrite !length_app, <- !app_assoc. unfold withLists. cbn [format maxWidth maxHeight].
    f_equal; [|by destruct def].
    f_equal.
    + f_equal. destruct def; cbn [classOf option_list omap length seq fmap list_fmap app];
        rewrite ?Nat.add_0_r; try reflexivity.
      by rewrite Nat.add_1_r.
    + by destruct def.
    + by destruct def.
Qed.

(** X1.  [processSchema] only appends.  Whatever the world holds stays,
    in place; after it come, in the order of the document, one class node
    per object definition (identity ["c" + name], its fields, the zero
    position, width and height zero) at consecutive fresh addresses with
    the pointers to them, the relations of each definition, one scalar per
    scalar definition and one directive per directive definition.  The
    random source, the format and the canvas are not touched. *)
Theorem processSchema_appends doc w :
  processSchema doc w =
  mkWorld
    (withLists (diagram w)
       (Classes (diagram w)
          ++ (Some <$> seq (length (heap w))
                        (length (omap classOf (ast.Definitions doc)))))
       (Relations (diagram w) ++ concat (map (relationsOf doc) (ast.Definitions doc)))
       (Scalars (diagram w) ++ omap scalarOf (ast.Definitions doc))
       (Directives (diagram w) ++ omap directiveOf (ast.Definitions doc)))
    (heap w ++ omap classOf (ast.Definitions doc)) (rand w).
Proof. apply processSchema_closed_defs. Qed.

Lemma worldOf_closed formatFlag doc r :
  worldOf formatFlag doc r =
  mkWorld
    (mkDiagram
       (Some <$> seq 0 (length (omap classOf (ast.Definitions doc))))
       (concat (map (relationsOf doc) (ast.Definitions doc)))
       (omap scalarOf (ast.Definitions doc))
       (omap directiveOf (ast.Definitions doc))
       (if String.eqb formatFlag "drawio" then DrawIO else Mermaid)
       1920%float 1080%float)
    (omap classOf (ast.Definitions doc)) r.
Proof.
  unfold worldOf, processSchema. rewrite processSchema_closed_defs.
  unfold initialWorld. by destruct (String.eqb formatFlag "drawio").
Qed.

Lemma classOf_shape defs :
  Forall (λ n, ID n = "c" +:+ Name n ∧ cPosition n = zeroPosition
               ∧ Width n = 0%float ∧ Height n = 0%float)
    (omap classOf defs).
Proof.
  induction defs as [|def defs IH]; [constructor|].
  destruct def; cbn; try done. by constructor.
Qed.

Lemma schema_classes_shape formatFlag doc r :
  Forall (λ n, ID n = "c" +:+ Name n ∧ Width n = 0%float ∧ Height n = 0%float)
    (heap (worldOf formatFlag doc r)).
Proof.
  rewrite worldOf_closed. cbn [heap].
  eapply Forall_impl; [apply classOf_shape|]. intros n (? & _ & ? & ?). done.
Qed.

(** X2.  In the world [main] builds from a parsed schema the class
    pointers are exactly the addresses of the heap, in order: no pointer is
    nil, no two are equal, every cell is a class of the diagram.  Every
    class node has the identity ["c" + Name], and its width and height are
    the zero value: [processSchema] never sets the sizes the node carries. *)
Theorem schema_classes_are_the_heap formatFlag doc r :
  Classes (diagram (worldOf formatFlag doc r))
    = Some <$> seq 0 (length (heap (worldOf formatFlag doc r))) ∧
  NoDup (Classes (diagram (worldOf formatFlag doc r))) ∧
  Forall (λ n, ID n = "c" +:+ Name n ∧ Width n = 0%float ∧ Height n = 0%float)
    (heap (worldOf formatFlag doc r)).
Proof.
  rewrite worldOf_closed. cbn [diagram heap Classes]. split_and!.
  - done.
  - apply NoDup_fmap_2; [intros ?? [=]; done | apply NoDup_seq].
  - eapply Forall_impl; [apply classOf_shape|]. intros n (? & _ & ? & ?). done.
Qed.

(** ** Which fields become relations *)

Lemma isInputType_named t doc :
  isInputType t doc = true →
  ∃ fields, ast.InputObjectDefinition (getBaseType t) fields ∈ ast.Definitions doc.
Proof.
  unfold isInputType. intros H. apply existsb_exists in H as (def & Hin & Hdef).
  destruct def; try done. apply String.eqb_eq in Hdef as ->.
  eexists. by apply list_elem_of_In.
Qed.

Lemma isInputType_not_builtin t doc :
  noBuiltinInput doc → isInputType t doc = true → isBuiltin (getBaseType t) = false.
Proof.
  intros Hn Hi. apply isInputType_named in Hi as [fields Hin].
  unfold noBuiltinInput in Hn. rewrite Forall_forall in Hn.
  exact (Hn _ Hin).
Qed.

Lemma isCustomScalar_not_builtin t doc :
  isCustomScalar t doc = true → isBuiltin (getBaseType t) = false.
Proof. unfold isCustomScalar. by destruct (isBuiltin (getBaseType t)). Qed.

Lemma field_test t doc :
  noBuiltinInput doc →
  isObjectType t doc || isInputType t doc = negb (isBuiltin (getBaseType t)).
Proof.
  intros Hn. unfold isObjectType.
  destruct (isInputType t doc) eqn:Hi.
  - rewrite (isInputType_not_builtin t doc Hn Hi). done.
  - by destruct (isBuiltin (getBaseType t)).
Qed.

Lemma argument_test t doc :
  isObjectType t doc || isInputType t doc || isCustomScalar t doc
  = isObjectType t doc || isInputType t doc.
Proof.
  destruct (isCustomScalar t doc) eqn:Hc; [|by rewrite orb_false_r].
  apply isCustomScalar_not_builtin in Hc. unfold isObjectType. rewrite Hc.
  by destruct (isInputType t doc).
Qed.

Lemma fieldRelations_base doc name fields :
  noBuiltinInput doc →
  fieldRelations doc name fields =
  omap (λ field,
    if isBuiltin (getBaseType (ast.fdType field)) then None
    else Some (mkRelation name (getBaseType (ast.fdType field)) "uses" ""))
    fields.
Proof.
  intros Hn. unfold fieldRelations. induction fields as [|f fs IH]; [done|].
  cbn [omap list_omap]. rewrite IH, (field_test _ doc Hn).
  by destruct (isBuiltin _).
Qed.

Lemma argumentRelations_base doc name arguments :
  noBuiltinInput doc →
  argumentRelations doc name arguments =
  omap (λ arg,
    if isBuiltin (getBaseType (ast.ivType arg)) then None
    else Some (mkRelation ("@" +:+ name) (getBaseType (ast.ivType arg))
                 "uses" "directive"))
    arguments.
Proof.
  intros Hn. unfold argumentRelations. induction arguments as [|a args IH]; [done|].
  cbn [omap list_omap]. rewrite IH, argument_test, (field_test _ doc Hn).
  by destruct (isBuiltin _).
Qed.

(** X3.  Unless the document defines an input object named like a
    built-in scalar, the relations of a definition do not depend on what
    else the document defines: an object type gets one relation per field
    whose base type is not [String], [Int], [Float], [Boolean] or [ID], and
    a directive one per such argument, whether that type is an object, an
    input, an enum, a scalar or not defined at all. *)
Theorem relations_follow_the_base_type doc name :
  noBuiltinInput doc →
  (∀ fields,
     fieldRelations doc name fields =
     omap (λ field,
       if isBuiltin (getBaseType (ast.fdType field)) then None
       else Some (mkRelation name (getBaseType (ast.fdType field)) "uses" ""))
       fields) ∧
  (∀ arguments,
     argumentRelations doc name arguments =
     omap (λ arg,
       if isBuiltin (getBaseType (ast.ivType arg)) then None
       else Some (mkRelation ("@" +:+ name) (getBaseType (ast.ivType arg))
                    "uses" "directive"))
       arguments).
Proof.
  intros Hn. split.
  - intros fields. by apply fieldRelations_base.
  - intros arguments. by apply argumentRelations_base.
Qed.

Lemma noBuiltinInput_smallSchema : noBuiltinInput smallSchema.
Proof. repeat constructor. Qed.

Lemma relations_follow_the_base_type_witness :
  fieldRelations smallSchema "A"
    [ast.mkFieldDefinition "z" (ast.Named "Z"); ast.mkFieldDefinition "n" (ast.Named "Int")]
  = [mkRelation "A" "Z" "uses" ""].
Proof.
  rewrite (proj1 (relations_follow_the_base_type smallSchema "A"
                    noBuiltinInput_smallSchema)).
  reflexivity.
Defined.

(** X4.  The test for a custom scalar in the loop over the arguments of a
    directive never decides anything: a type that passes it has already
    passed the test for an object type or for an input type. *)
Theorem custom_scalar_test_is_redundant t doc :
  isObjectType t doc || isInputType t doc || isCustomScalar t doc
  = isObjectType t doc || isInputType t doc.
Proof. apply argument_test. Qed.

Lemma noBuiltinInput_keepDrawn doc : noBuiltinInput (keepDrawn doc).
Proof.
  unfold noBuiltinInput, keepDrawn. cbn. apply Forall_forall. intros def Hin.
  apply list_elem_of_filter in Hin as [Hd _]. by destruct def.
Qed.

Lemma relationsOf_ext doc doc' def :
  noBuiltinInput doc → noBuiltinInput doc' →
  relationsOf doc def = relationsOf doc' def.
Proof.
  intros H H'. destruct def as [name fields| |name ? arguments ?| |]; try done; cbn.
  - by rewrite (fieldRelations_base doc name fields H),
               (fieldRelations_base doc' name fields H').
  - by rewrite (argumentRelations_base doc name arguments H),
               (argumentRelations_base doc' name arguments H').
Qed.

(** X5.  The definitions [processSchema] has no case for (input objects,
    enums, interfaces, unions, ...) leave no trace in the diagram: unless
    an input object is named like a built-in scalar, the document without
    them gives the same world. *)
Theorem undrawn_definitions_leave_no_trace doc w :
  noBuiltinInput doc → processSchema doc w = processSchema (keepDrawn doc) w.
Proof.
  intros Hn. unfold processSchema. rewrite !processSchema_closed_defs.
  pose proof (noBuiltinInput_keepDrawn doc) as Hk.
  unfold keepDrawn in *. cbn [ast.Definitions] in *.
  set (doc' := ast.mkDocument _) in *.
  assert (∀ defs,
    omap classOf (filter (λ def, drawn def = true) defs) = omap classOf defs ∧
    omap scalarOf (filter (λ def, drawn def = true) defs) = omap scalarOf defs ∧
    omap directiveOf (filter (λ def, drawn def = true) defs) = omap directiveOf defs ∧
    concat (map (relationsOf doc') (filter (λ def, drawn def = true) defs))
      = concat (map (relationsOf doc) defs)) as Hf.
  { induction defs as [|def defs (IH1 & IH2 & IH3 & IH4)]; [done|].
    rewrite filter_cons.
    destruct def; cbn [drawn]; try (rewrite decide_True by done);
      try (rewrite decide_False by done); cbn [omap list_omap classOf scalarOf
        directiveOf map concat]; rewrite ?IH1, ?IH2, ?IH3, ?IH4;
      rewrite ?(relationsOf_ext doc' doc) by done; done. }
  destruct (Hf (ast.Definitions doc)) as (-> & -> & -> & ->). done.
Qed.

Lemma undrawn_definitions_leave_no_trace_witness :
  processSchema mixedSchema (initialWorld "drawio" sampleRand)
  = processSchema (keepDrawn mixedSchema) (initialWorld "drawio" sampleRand).
Proof.
  apply undrawn_definitions_leave_no_trace. repeat constructor.
Defined.

(** ** The ends of a relation *)

Lemma findEnds_snoc h rel l p :
  findEnds h rel (l ++ [p]) = ft ← findEnds h rel l; findEnd h rel p ft.
Proof.
  unfold findEnds. rewrite forEach_app.
  destruct (forEach (findEnd h rel) l _) as [ft|]; [|done].
  cbn [mbind option_bind]. apply forEach_singleton.
Qed.

Lemma lastNamed_snoc h s l p :
  lastNamed h s (l ++ [p]) =
  if decide (Name <$> deref h p = Some s) then p else lastNamed h s l.
Proof.
  unfold lastNamed. rewrite filter_app, filter_cons, filter_nil.
  case_decide.
  - by rewrite last_snoc.
  - by rewrite app_nil_r.
Qed.

Lemma findEnds_lastNamed h rel l :
  Forall (validPtr h) l →
  findEnds h rel l = Some (lastNamed h (From rel) l, lastNamed h (To rel) l).
Proof.
  induction l as [|p l IH] using rev_ind; intros Hl; [done|].
  apply Forall_app in Hl as [Hl Hp]. apply Forall_singleton in Hp as [n Hn].
  rewrite findEnds_snoc, IH by done. cbn [mbind option_bind].
  unfold findEnd. rewrite Hn. cbn [mbind option_bind fst snd].
  rewrite !lastNamed_snoc, Hn. cbn [fmap option_fmap option_map].
  f_equal. f_equal.
  - destruct (String.eqb_spec (Name n) (From rel)) as [->|Hne].
    + by rewrite decide_True.
    + rewrite decide_False; [done|]. by intros [=].
  - destruct (String.eqb_spec (Name n) (To rel)) as [->|Hne].
    + by rewrite decide_True.
    + rewrite decide_False; [done|]. by intros [=].
Qed.

Lemma lastNamed_None h s l :
  lastNamed h s l = None ↔ ∀ p n, p ∈ l → deref h p = Some n → Name n ≠ s.
Proof.
  unfold lastNamed. split.
  - intros Hnone p n Hp Hn Hs.
    destruct (last (filter (λ p, Name <$> deref h p = Some s) l)) as [q|] eqn:E.
    + apply last_Some_elem_of, list_elem_of_filter in E as [Hq _].
      cbn in Hnone. rewrite Hnone in Hq. discriminate Hq.
    + apply last_None in E.
      assert (p ∉ l) as Hnot; [|done].
      eapply filter_nil_not_elem_of; [exact E|]. cbn beta.
      rewrite Hn. cbn. by rewrite Hs.
  - intros Hno.
    destruct (last (filter (λ p, Name <$> deref h p = Some s) l)) as [q|] eqn:E; [|done].
    apply last_Some_elem_of, list_elem_of_filter in E as [Hq Hin].
    destruct (deref h q) as [n|] eqn:Hn; [|done]. injection Hq as Hq.
    by destruct (Hno q n Hin Hn).
Qed.

(** X6.  The lookup of the two ends has no [break]: when several nodes of
    the working set carry the name, the relation is attached to the last of
    them, and an end is nil exactly when no node carries the name. *)
Theorem relation_ends_are_the_last_match h rel l :
  Forall (validPtr h) l →
  findEnds h rel l = Some (lastNamed h (From rel) l, lastNamed h (To rel) l) ∧
  (lastNamed h (From rel) l = None ↔
     ∀ p n, p ∈ l → deref h p = Some n → Name n ≠ From rel) ∧
  (lastNamed h (To rel) l = None ↔
     ∀ p n, p ∈ l → deref h p = Some n → Name n ≠ To rel).
Proof.
  intros Hl. split_and!.
  - by apply findEnds_lastNamed.
  - apply lastNamed_None.
  - apply lastNamed_None.
Qed.

Lemma relation_ends_are_the_last_match_witness :
  findEnds [nodeA; nodeB; nodeA] (mkRelation "A" "B" "uses" "")
    [Some 0; Some 1; Some 2] = Some (Some 2, Some 1).
Proof.
  apply (proj1 (relation_ends_are_the_last_match [nodeA; nodeB; nodeA]
           (mkRelation "A" "B" "uses" "") [Some 0; Some 1; Some 2]
           ltac:(repeat constructor; eexists; reflexivity))).
Defined.

Lemma elem_of_concat_map {A B : Type} (f : A → list B) l y :
  y ∈ concat (map f l) → ∃ x, x ∈ l ∧ y ∈ f x.
Proof.
  induction l as [|x l IH]; cbn; [by intros ?%not_elem_of_nil|].
  rewrite elem_of_app. intros [Hy|Hy].
  - exists x. split; [left | done].
  - destruct (IH Hy) as (x' & Hx' & Hy'). exists x'. split; [by right | done].
Qed.

Lemma fieldRelations_From doc name fields rel :
  rel ∈ fieldRelations doc name fields → From rel = name.
Proof.
  unfold fieldRelations. rewrite list_elem_of_omap. intros (field & _ & Hf).
  destruct (_ || _); [|done]. by injection Hf as <-.
Qed.

Lemma argumentRelations_From doc name arguments rel :
  rel ∈ argumentRelations doc name arguments → From rel = "@" +:+ name.
Proof.
  unfold argumentRelations. rewrite list_elem_of_omap. intros (arg & _ & Hf).
  destruct (_ || _); [|done]. by injection Hf as <-.
Qed.

(** A class of the diagram is a node of the working set. *)
Lemma working_set_has_class d (h : Heap) r a n :
  Some a ∈ Classes d → h !! a = Some n →
  Some a ∈ (buildAllNodes d h r).1.1 ∧
  deref (buildAllNodes d h r).1.2 (Some a) = Some n.
Proof.
  intros Hc Hn. rewrite buildAllNodes_spec. cbn [fst snd]. split.
  - apply elem_of_app. by left.
  - cbn. by apply lookup_app_l_Some.
Qed.

(** So is the node allocated for a directive, under the name ["@" + name]. *)
Lemma working_set_has_directive d (h : Heap) r j directive :
  Directives d !! j = Some directive →
  ∃ p n, p ∈ (buildAllNodes d h r).1.1 ∧
    deref (buildAllNodes d h r).1.2 p = Some n ∧
    Name n = "@" +:+ directiveName directive.
Proof.
  intros Hj. rewrite buildAllNodes_spec. cbn [fst snd].
  pose proof (lookup_lt_Some _ _ _ Hj) as Hlt.
  exists (Some (length h + length (Scalars d) + j)),
    (freshDirective d (skip (2 * length (Scalars d)) r) j directive).
  split_and!.
  - rewrite !elem_of_app. right. right. apply list_elem_of_fmap.
    eexists. split; [done|]. apply elem_of_seq. lia.
  - cbn. rewrite lookup_app_r by lia. rewrite lookup_app_r by (rewrite length_imap; lia).
    rewrite length_imap, list_lookup_imap.
    replace (length h + length (Scalars d) + j - length h - length (Scalars d)) with j by lia.
    by rewrite Hj.
  - done.
Qed.

Lemma from_end_found formatFlag doc r rel :
  rel ∈ Relations (diagram (worldOf formatFlag doc r)) →
  ∃ p n,
    p ∈ (buildAllNodes (diagram (worldOf formatFlag doc r))
           (heap (worldOf formatFlag doc r)) (rand (worldOf formatFlag doc r))).1.1 ∧
    deref (buildAllNodes (diagram (worldOf formatFlag doc r))
             (heap (worldOf formatFlag doc r)) (rand (worldOf formatFlag doc r))).1.2 p
      = Some n ∧
    Name n = From rel.
Proof.
  rewrite worldOf_closed. cbn [diagram heap rand Relations].
  intros Hrel. apply elem_of_concat_map in Hrel as (def & Hdef & Hrel).
  destruct def as [name fields| |name desc arguments locations| |];
    cbn [relationsOf] in Hrel; try by apply not_elem_of_nil in Hrel.
  - apply fieldRelations_From in Hrel as ->.
    assert (mkClassNode ("c" +:+ name) name (map classField fields) zeroPosition 0 0
            ∈ omap classOf (ast.Definitions doc)) as Hn.
    { apply list_elem_of_omap. eexists. split; [exact Hdef | done]. }
    apply list_elem_of_lookup in Hn as [a Ha].
    exists (Some a). eexists. split_and!.
    + eapply working_set_has_class; [|exact Ha]. cbn [Classes].
      apply list_elem_of_fmap. eexists. split; [done|]. apply elem_of_seq.
      apply lookup_lt_Some in Ha. lia.
    + eapply working_set_has_class; [|exact Ha]. cbn [Classes].
      apply list_elem_of_fmap. eexists. split; [done|]. apply elem_of_seq.
      apply lookup_lt_Some in Ha. lia.
    + done.
  - apply argumentRelations_From in Hrel as ->.
    assert (mkDirectiveNode name (getDescription desc) (map directiveArgument arguments)
              locations zeroPosition ∈ omap directiveOf (ast.Definitions doc)) as Hn.
    { apply list_elem_of_omap. eexists. split; [exact Hdef | done]. }
    apply list_elem_of_lookup in Hn as [j Hj].
    match goal with
    | |- context [buildAllNodes ?d ?h ?r0] =>
        exact (working_set_has_directive d h r0 j _ Hj)
    end.
Qed.

(** X7.  Only the to end of a relation can dangle.  In the first layout
    of a parsed schema the from end of every relation is found: it is the
    name of the object type the field belongs to, which has a class node,
    or ["@" + name] of the directive the argument belongs to, which is the
    name of the node the layout allocates for that directive. *)
Theorem from_end_is_always_found formatFlag doc r rel :
  rel ∈ Relations (diagram (worldOf formatFlag doc r)) →
  ∃ f t,
    findEnds
      (buildAllNodes (diagram (worldOf formatFlag doc r))
         (heap (worldOf formatFlag doc r)) (rand (worldOf formatFlag doc r))).1.2
      rel
      (buildAllNodes (diagram (worldOf formatFlag doc r))
         (heap (worldOf formatFlag doc r)) (rand (worldOf formatFlag doc r))).1.1
    = Some (Some f, t).
Proof.
  intros Hrel.
  destruct (buildAllNodes _ _ _) as [[l h0] r'] eqn:E.
  pose proof (buildAllNodes_valid _ _ _ _ _ _ E (worldOf_wellFormed formatFlag doc r)) as Hl.
  pose proof (from_end_found formatFlag doc r rel Hrel) as (p & n & Hp & Hn & Hname).
  rewrite E in Hp, Hn. cbn [fst snd] in *.
  rewrite (findEnds_lastNamed h0 rel l Hl).
  destruct (lastNamed h0 (From rel) l) as [f|] eqn:Hf.
  - by eexists _, _.
  - destruct (proj1 (lastNamed_None h0 (From rel) l) Hf p n Hp Hn Hname).
Qed.

Lemma from_end_is_always_found_witness :
  ∃ f t,
    findEnds
      (buildAllNodes (diagram (worldOf "drawio" smallSchema sampleRand))
         (heap (worldOf "drawio" smallSchema sampleRand))
         (rand (worldOf "drawio" smallSchema sampleRand))).1.2
      (mkRelation "@auth" "S" "uses" "directive")
      (buildAllNodes (diagram (worldOf "drawio" smallSchema sampleRand))
         (heap (worldOf "drawio" smallSchema sampleRand))
         (rand (worldOf "drawio" smallSchema sampleRand))).1.1
    = Some (Some f, t).
Proof.
  apply (from_end_is_always_found "drawio" smallSchema sampleRand).
  vm_compute. right. left.
Defined.

(** ** generateDrawIOXML step by step *)

(** What one invocation of [calculateLayout] leaves: the old cells,
    framed, then one temporary per scalar and directive. *)
Lemma calculateLayout_heap w w' :
  calculateLayout w = Some w' →
  ∃ h1 fresh,
    heap w' = h1 ++ fresh ∧ framed (heap w) h1 ∧
    length fresh = placed (diagram w).
Proof.
  rewrite calculateLayout_unfold. cbv zeta. rewrite buildAllNodes_spec. cbn [fst snd].
  destruct (repeatN _ _ _) as [h'|] eqn:E; [|done]. simpl. intros [= <-]. simpl.
  apply simulation_updates in E as [F _].
  apply Forall2_app_inv_l in F as (h1 & fresh & F1 & F2 & ->).
  exists h1, fresh. split_and!; [done..|].
  apply Forall2_length in F2. rewrite <- F2, length_app, !length_imap. done.
Qed.

Lemma calculateLayout_length w w' :
  calculateLayout w = Some w' →
  length (heap w') = length (heap w) + placed (diagram w).
Proof.
  intros (h1 & fresh & -> & F & L)%calculateLayout_heap.
  apply Forall2_length in F. rewrite length_app. lia.
Qed.

Lemma framed_app_validPtr (h h1 fresh : Heap) p :
  framed h h1 → validPtr h p → validPtr (h1 ++ fresh) p.
Proof. intros F V. apply validPtr_app. by eapply framed_validPtr. Qed.

Lemma calculateLayout_wellFormed w :
  wellFormed w →
  ∃ w', calculateLayout w = Some w' ∧ wellFormed w' ∧ diagram w' = diagram w.
Proof.
  intros Hw. destruct (calculateLayout_total w Hw) as [w' E]. exists w'.
  pose proof (calculateLayout_rand _ _ E) as [D _].
  pose proof (calculateLayout_heap _ _ E) as (h1 & fresh & Hh & F & _).
  split_and!; [done| |done]. unfold wellFormed in *. rewrite D, Hh.
  eapply Forall_impl; [exact Hw|]. intros p. by apply framed_app_validPtr.
Qed.

Lemma scalarsAsClasses_spec ss cs (h : Heap) :
  fold_left (λ st scalar, scalarAsClass scalar st) ss (cs, h) =
  (cs ++ (Some <$> seq (length h) (length ss)), h ++ map scalarCopy ss).
Proof.
  revert cs h. induction ss as [|s ss IH]; intros cs h.
  - cbn. by rewrite !app_nil_r.
  - cbn [fold_left]. unfold scalarAsClass at 2. cbn [alloc]. rewrite IH.
    rewrite length_app. cbn [length map seq fmap list_fmap].
    rewrite Nat.add_1_r, <- !app_assoc. done.
Qed.

Lemma directivesAsClasses_spec ds cs (h : Heap) :
  fold_left (λ st directive, directiveAsClass directive st) ds (cs, h) =
  (cs ++ (Some <$> seq (length h) (length ds)), h ++ map directiveCopy ds).
Proof.
  revert cs h. induction ds as [|s ds IH]; intros cs h.
  - cbn. by rewrite !app_nil_r.
  - cbn [fold_left]. unfold directiveAsClass at 2. cbn [alloc]. rewrite IH.
    rewrite length_app. cbn [length map seq fmap list_fmap].
    rewrite Nat.add_1_r, <- !app_assoc. done.
Qed.

Lemma wellFormed_grow d (h : Heap) r (new : list ClassNode) :
  wellFormed (mkWorld d h r) →
  wellFormed
    (mkWorld (withClasses d (Classes d ++ (Some <$> seq (length h) (length new))))
       (h ++ new) r).
Proof.
  unfold wellFormed. cbn [diagram heap withClasses Classes]. intros Hw.
  apply Forall_app. split.
  - eapply Forall_impl; [exact Hw|]. intros p. apply validPtr_app.
  - apply Forall_validPtr_seq. rewrite length_app. lia.
Qed.

Lemma classCells_total h ps cells :
  Forall (validPtr h) ps → is_Some (forEach (classCells h) ps cells).
Proof.
  intros Hp.
  destruct (forEach_total (λ _, True) (classCells h) ps) with (s := cells)
    as (out' & -> & _); [|done..].
  intros p s Hin _. rewrite Forall_forall in Hp. destruct (Hp p Hin) as [n Hn].
  unfold classCells. rewrite Hn. cbn. eauto.
Qed.

(** [generateDrawIOXML] in a world whose class pointers can be read:
    every step completes. *)
Lemma generateDrawIOXML_total w :
  wellFormed w → is_Some (generateDrawIOXML w).
Proof.
  intros Hw. unfold generateDrawIOXML.
  destruct (calculateLayout_wellFormed w Hw) as (w1 & -> & Hw1 & D1).
  cbn [mbind option_bind].
  destruct (classCells_total (heap w1) (Classes (diagram w1))
    [ mkMxCell "0" "" "" "" "" "" "" "" None;
      mkMxCell "1" "" "" "0" "" "" "" "" None ] Hw1) as [cells1 ->].
  cbn [mbind option_bind]. rewrite scalarsAsClasses_spec.
  destruct w1 as [d1 h1 r1]. cbn [diagram heap rand] in *.
  pose proof (wellFormed_grow d1 h1 r1 (map scalarCopy (Scalars d1)) Hw1) as Hw1'.
  rewrite length_map in Hw1'.
  destruct (calculateLayout_wellFormed _ Hw1') as (w2 & -> & Hw2 & D2).
  cbn [mbind option_bind]. rewrite directivesAsClasses_spec.
  destruct w2 as [d2 h2 r2]. cbn [diagram heap rand] in *.
  pose proof (wellFormed_grow d2 h2 r2 (map directiveCopy (Directives d2)) Hw2) as Hw2'.
  rewrite length_map in Hw2'.
  destruct (calculateLayout_wellFormed _ Hw2') as (w3 & -> & Hw3 & D3).
  done.
Qed.

(** X8.  The program never dereferences a nil pointer: for every parsed
    schema, every format flag and every random source, [main] runs to its
    end and prints something. *)
Theorem main_never_panics formatFlag doc r : is_Some (main formatFlag doc r).
Proof.
  unfold main. fold (worldOf formatFlag doc r).
  pose proof (worldOf_wellFormed formatFlag doc r) as Hw.
  destruct (decide (format (diagram (worldOf formatFlag doc r)) = DrawIO)) as [Hf|Hf].
  - unfold outputDiagram. rewrite decide_True by done.
    destruct (generateDrawIOXML_total _ Hw) as [[f w'] ->]. done.
  - rewrite outputDiagram_mermaid by done.
    destruct (mermaidClasses_total (heap (worldOf formatFlag doc r))
      (Classes (diagram (worldOf formatFlag doc r)))
      ("classDiagram" +:+ nl
       +:+ String.concat ""
             (map mermaidDirective (Directives (diagram (worldOf formatFlag doc r))))
       +:+ String.concat ""
             (map mermaidScalar (Scalars (diagram (worldOf formatFlag doc r))))) Hw)
      as [out ->].
    done.
Qed.

Lemma skip_skip a b r : skip a (skip b r) = skip (b + a) r.
Proof. unfold skip. cbn. f_equal. lia. Qed.

Lemma generateDrawIOXML_world w f w' :
  generateDrawIOXML w = Some (f, w') →
  diagram w' =
    withClasses (diagram w)
      (Classes (diagram w)
         ++ (Some <$> seq (length (heap w) + placed (diagram w))
                        (length (Scalars (diagram w))))
         ++ (Some <$> seq (length (heap w) + 2 * placed (diagram w)
                            + length (Scalars (diagram w)))
                        (length (Directives (diagram w))))) ∧
  length (heap w') = length (heap w) + 4 * placed (diagram w) ∧
  rand w' = skip (6 * placed (diagram w)) (rand w).
Proof.
  unfold generateDrawIOXML.
  destruct (calculateLayout w) as [w1|] eqn:E1; [|done].
  pose proof (calculateLayout_rand _ _ E1) as [D1 R1].
  pose proof (calculateLayout_length _ _ E1) as L1.
  cbn [mbind option_bind].
  destruct (forEach (classCells (heap w1)) (Classes (diagram w1)) _) as [cells1|];
    [|done].
  cbn [mbind option_bind]. rewrite scalarsAsClasses_spec.
  match goal with
  | |- context [calculateLayout ?w0] =>
      destruct (calculateLayout w0) as [w2|] eqn:E2; [|done]
  end.
  pose proof (calculateLayout_rand _ _ E2) as [D2 R2].
  pose proof (calculateLayout_length _ _ E2) as L2.
  cbn [mbind option_bind diagram heap rand] in *. rewrite directivesAsClasses_spec.
  match goal with
  | |- context [calculateLayout ?w0] =>
      destruct (calculateLayout w0) as [w3|] eqn:E3; [|done]
  end.
  pose proof (calculateLayout_rand _ _ E3) as [D3 R3].
  pose proof (calculateLayout_length _ _ E3) as L3.
  cbn [mbind option_bind diagram heap rand] in *. intros [= <- <-].
  rewrite length_app, length_map in L2, L3.
  unfold placed in *. rewrite D2 in *. cbn [withClasses Scalars Directives] in *.
  rewrite D1 in *. split_and!.
  - rewrite D3. unfold withClasses. cbn. rewrite L2, L1, <- app_assoc.
    f_equal. f_equal. f_equal. f_equal. f_equal. lia.
  - lia.
  - rewrite R3, R2, R1, !skip_skip. f_equal. lia.
Qed.

(** X9.  [generateDrawIOXML] changes the diagram it renders: when it
    returns, [d.Classes] holds, after the class pointers it had, one more
    pointer per scalar and one more per directive, to the nodes the
    function allocated for them; relations, scalars, directives, format and
    canvas are as before.  The heap has grown by four cells per scalar and
    directive, and the random source has moved by six draws per scalar and
    directive. *)
Theorem generateDrawIOXML_grows_the_diagram w f w' :
  generateDrawIOXML w = Some (f, w') →
  diagram w' =
    withClasses (diagram w)
      (Classes (diagram w)
         ++ (Some <$> seq (length (heap w) + placed (diagram w))
                        (length (Scalars (diagram w))))
         ++ (Some <$> seq (length (heap w) + 2 * placed (diagram w)
                            + length (Scalars (diagram w)))
                        (length (Directives (diagram w))))) ∧
  length (heap w') = length (heap w) + 4 * placed (diagram w) ∧
  rand w' = skip (6 * placed (diagram w)) (rand w).
Proof. apply generateDrawIOXML_world. Qed.

Lemma generateDrawIOXML_grows_the_diagram_witness :
  ∃ f w', generateDrawIOXML (worldOf "drawio" smallSchema sampleRand) = Some (f, w') ∧
    Classes (diagram w') = [Some 0; Some 1; Some 4; Some 7] ∧
    length (heap w') = 10 ∧
    cursor (rand w') = 12.
Proof.
  destruct (generateDrawIOXML (worldOf "drawio" smallSchema sampleRand))
    as [[f w']|] eqn:E.
  - exists f, w'. split; [reflexivity|].
    destruct (generateDrawIOXML_grows_the_diagram _ _ _ E) as (-> & -> & ->).
    split_and!; reflexivity.
  - vm_compute in E. discriminate E.
Defined.

(** ** The cells of the file *)







(** ** What the layout reads of a node *)

Lemma forEach_rel {A S : Type} (R : S → S → Prop) (f g : A → S → option S) l :
  (∀ a s s', R s s' → option_Forall2 R (f a s) (g a s')) →
  ∀ s s', R s s' → option_Forall2 R (forEach f l s) (forEach g l s').
Proof.
  intros Hfg. induction l as [|a l IH]; intros s s' Hs; cbn [forEach].
  - by constructor.
  - destruct (Hfg a s s' Hs) as [t t' Ht|]; cbn [mbind option_bind].
    + by apply IH.
    + constructor.
Qed.

Lemma repeatN_rel {S : Type} (R : S → S → Prop) (f g : S → option S) n :
  (∀ s s', R s s' → option_Forall2 R (f s) (g s')) →
  ∀ s s', R s s' → option_Forall2 R (repeatN n f s) (repeatN n g s').
Proof.
  intros Hfg. induction n as [|n IH]; intros s s' Hs; cbn [repeatN].
  - by constructor.
  - destruct (Hfg s s' Hs) as [t t' Ht|]; cbn [mbind option_bind].
    + by apply IH.
    + constructor.
Qed.

Lemma deref_layoutEq h h' p :
  Forall2 layoutEq h h' → option_Forall2 layoutEq (deref h p) (deref h' p).
Proof.
  intros F. destruct p as [a|]; [|constructor]. cbn.
  by apply Forall2_lookup.
Qed.

Lemma writePosition_layoutEq h h' p pos :
  Forall2 layoutEq h h' →
  option_Forall2 (Forall2 layoutEq) (writePosition h p pos) (writePosition h' p pos).
Proof.
  intros F. destruct p as [a|]; [|constructor]. unfold writePosition. cbn.
  pose proof (proj1 (Forall2_lookup _ _ _) F a) as Ha.
  destruct Ha as [n n' [Hn _]|]; cbn; constructor.
  apply Forall2_insert; [done|]. by split.
Qed.

Lemma repel_layoutEq k v u h h' :
  Forall2 layoutEq h h' →
  option_Forall2 (Forall2 layoutEq) (repel k v u h) (repel k v u h').
Proof.
  intros F. unfold repel. case_decide; [by constructor|].
  destruct (deref_layoutEq h h' v F) as [nv nv' [_ Hv]|]; [|constructor].
  destruct (deref_layoutEq h h' u F) as [nu nu' [_ Hu]|]; [|constructor].
  cbn [mbind option_bind]. rewrite Hv, Hu. by apply writePosition_layoutEq.
Qed.

Lemma findEnds_layoutEq h h' rel l :
  Forall2 layoutEq h h' → findEnds h rel l = findEnds h' rel l.
Proof.
  intros F. unfold findEnds. apply forEach_ext. intros p ft _. unfold findEnd.
  destruct (deref_layoutEq h h' p F) as [n n' [Hn _]|]; [|done].
  cbn [mbind option_bind]. by rewrite Hn.
Qed.

Lemma pull_layoutEq k f t h h' :
  Forall2 layoutEq h h' →
  option_Forall2 (Forall2 layoutEq) (pull k f t h) (pull k f t h').
Proof.
  intros F.
  pose proof (deref_layoutEq h h' f F) as Rf.
  pose proof (deref_layoutEq h h' t F) as Rt.
  destruct (deref h f) as [nf|] eqn:Ef, (deref h' f) as [nf'|] eqn:Ef';
    try (by inv Rf); [|unfold pull; rewrite Ef, Ef'; constructor].
  destruct (deref h t) as [nt|] eqn:Et, (deref h' t) as [nt'|] eqn:Et';
    try (by inv Rt); [|unfold pull; rewrite Ef, Ef', Et, Et'; constructor].
  inv Rf. inv Rt.
  rewrite (pull_floorDist k f t h nf nt), (pull_floorDist k f t h' nf' nt') by done.
  repeat match goal with H : layoutEq _ _ |- _ => destruct H as [_ ->] end.
  destruct (writePosition_layoutEq h h' f
    (minus (cPosition nf') (attraction k (cPosition nf') (cPosition nt'))) F)
    as [h1 h1' F1|]; [|constructor].
  cbn [mbind option_bind].
  destruct (deref_layoutEq h1 h1' t F1) as [nt1 nt1' [_ Ht1]|]; [|constructor].
  cbn [mbind option_bind]. rewrite Ht1. by apply writePosition_layoutEq.
Qed.

Lemma attract_layoutEq k l rel h h' :
  Forall2 layoutEq h h' →
  option_Forall2 (Forall2 layoutEq) (attract k l rel h) (attract k l rel h').
Proof.
  intros F. unfold attract. rewrite <- (findEnds_layoutEq h h' rel l F).
  destruct (findEnds h rel l) as [[[f|] [t|]]|]; cbn [mbind option_bind];
    try (by constructor).
  by apply pull_layoutEq.
Qed.

Lemma iteration_layoutEq k l rels h h' :
  Forall2 layoutEq h h' →
  option_Forall2 (Forall2 layoutEq) (iteration k l rels h) (iteration k l rels h').
Proof.
  intros F. unfold iteration.
  assert (option_Forall2 (Forall2 layoutEq) (repulsionPass k l h) (repulsionPass k l h'))
    as [h1 h1' F1|].
  { unfold repulsionPass. apply forEach_rel; [|done]. intros v s s' Hs.
    apply forEach_rel; [|done]. intros u t t' Ht. by apply repel_layoutEq. }
  - cbn [mbind option_bind]. unfold attractionPass. apply forEach_rel; [|done].
    intros rel s s' Hs. by apply attract_layoutEq.
  - constructor.
Qed.

Lemma layoutEq_refl n : layoutEq n n.
Proof. done. Qed.

Lemma Forall2_layoutEq_view h h' :
  Forall2 layoutEq h h' ↔ layoutView h = layoutView h'.
Proof.
  unfold layoutView. split.
  - induction 1 as [|n n' h h' [Hn Hp] _ IH]; [done|]. cbn. by rewrite Hn, Hp, IH.
  - revert h'. induction h as [|n h IH]; intros [|n' h']; try done.
    cbn. intros [= Hn Hp E]. constructor; [done|]. by apply IH.
Qed.

Lemma calculateLayout_layoutEq d h h' r :
  Forall2 layoutEq h h' →
  option_Forall2 (λ w1 w2, Forall2 layoutEq (heap w1) (heap w2))
    (calculateLayout (mkWorld d h r)) (calculateLayout (mkWorld d h' r)).
Proof.
  intros F. rewrite !calculateLayout_unfold. cbv zeta. cbn [diagram heap rand].
  rewrite !buildAllNodes_spec. cbn [fst snd].
  rewrite <- (Forall2_length _ _ _ F).
  set (fresh := imap _ _ ++ imap _ _).
  assert (Forall2 layoutEq (h ++ fresh) (h' ++ fresh)) as F0.
  { apply Forall2_app; [done|]. apply Forall2_same_length_lookup_2; [done|].
    intros i x y -> [= ->]. apply layoutEq_refl. }
  destruct (repeatN_rel (Forall2 layoutEq)
              (iteration (idealLength d)
                 (Classes d ++ (Some <$> seq (length h) (length (Scalars d)))
                    ++ (Some <$> seq (length h + length (Scalars d))
                                     (length (Directives d))))
                 (Relations d))
              (iteration (idealLength d)
                 (Classes d ++ (Some <$> seq (length h) (length (Scalars d)))
                    ++ (Some <$> seq (length h + length (Scalars d))
                                     (length (Directives d))))
                 (Relations d))
              iterations
              (λ s s', iteration_layoutEq _ _ _ s s') _ _ F0) as [h1 h1' F1|];
    cbn [mbind option_bind]; by constructor.
Qed.

(** X11.  The layout reads two things of a class node, its name (to find
    the ends of the relations) and its position.  Identity, fields, width
    and height play no part: two heaps whose nodes agree on name and
    position give, with the same diagram and random source, the same
    outcome and the same names and positions for every cell: the sizes of
    the nodes do not influence where the nodes are put. *)
Theorem layout_ignores_node_sizes d h h' r :
  layoutView h = layoutView h' →
  (layoutView ∘ heap) <$> calculateLayout (mkWorld d h r)
  = (layoutView ∘ heap) <$> calculateLayout (mkWorld d h' r).
Proof.
  intros F%Forall2_layoutEq_view.
  destruct (calculateLayout_layoutEq d h h' r F) as [w1 w2 F1|]; [|done].
  cbn. f_equal. by apply Forall2_layoutEq_view.
Qed.

Lemma layout_ignores_node_sizes_witness :
  (layoutView ∘ heap) <$> calculateLayout (mkWorld pairDiagram sampleHeap sampleRand)
  = (layoutView ∘ heap) <$> calculateLayout (mkWorld pairDiagram wideHeap sampleRand).
Proof. apply layout_ignores_node_sizes. reflexivity. Defined.

(** ** Strings *)

Lemma append_assoc (s1 s2 s3 : string) : (s1 +:+ s2) +:+ s3 = s1 +:+ (s2 +:+ s3).
Proof.
  induction s1 as [|a s1 IH]; [done|].
  change (String a ((s1 +:+ s2) +:+ s3) = String a (s1 +:+ (s2 +:+ s3))).
  by rewrite IH.
Qed.

Lemma append_nil_r (s : string) : s +:+ "" = s.
Proof.
  induction s as [|a s IH]; [done|].
  change (String a (s +:+ "") = String a s). by rewrite IH.
Qed.

Lemma length_append (s1 s2 : string) :
  String.length (s1 +:+ s2) = String.length s1 + String.length s2.
Proof.
  induction s1 as [|a s1 IH]; [done|].
  change (S (String.length (s1 +:+ s2)) = S (String.length s1 + String.length s2)).
  by rewrite IH.
Qed.

Lemma prefixed_ne (p s : string) : p ≠ "" → p +:+ s ≠ s.
Proof.
  intros Hp E. apply (f_equal String.length) in E. rewrite length_append in E.
  destruct p; [done|]. cbn in E. lia.
Qed.

(** ** Edges and the cells they should join *)

(** X12.  An edge cell never names the cell of the node it belongs to.
    Its source and target are the names in the relation, while the cell of
    a class is identified by ["c" + name], the cell of a scalar by
    ["scalar_" + name] and the cell of a directive, whose relations start
    at ["@" + name], by ["directive_" + name]. *)
Theorem edge_cells_miss_their_cells formatFlag doc r :
  (∀ n rel i,
     n ∈ heap (worldOf formatFlag doc r) →
     (From rel = Name n → Source (edgeCell i rel) ≠ ID n) ∧
     (To rel = Name n → Target (edgeCell i rel) ≠ ID n)) ∧
  (∀ scalar rel i,
     To rel = scalarName scalar →
     Target (edgeCell i rel) ≠ cellID (scalarCell scalar)) ∧
  (∀ directive rel i cell,
     From rel = "@" +:+ directiveName directive →
     head (directiveCells directive) = Some cell →
     Source (edgeCell i rel) ≠ cellID cell).
Proof.
  split_and!.
  - intros n rel i Hn.
    pose proof (schema_classes_shape formatFlag doc r) as Hs.
    rewrite Forall_forall in Hs. destruct (Hs n Hn) as [Hid _].
    cbn [edgeCell Source Target]. rewrite Hid.
    split; intros ->; apply not_eq_sym, prefixed_ne; done.
  - intros scalar rel i. cbn [edgeCell Target scalarCell cellID]. intros ->.
    apply not_eq_sym, prefixed_ne. done.
  - intros directive rel i cell. cbn [edgeCell Source directiveCells head].
    intros -> [= <-]. cbn [cellID]. discriminate.
Qed.

Lemma edge_cells_miss_their_cells_witness :
  Source (edgeCell 0 (mkRelation "A" "Z" "uses" "")) ≠ "cA".
Proof.
  apply (proj1 (proj1 (edge_cells_miss_their_cells "drawio" smallSchema sampleRand)
                  (mkClassNode "cA" "A" [mkField "z" "Z" false] zeroPosition 0 0)
                  (mkRelation "A" "Z" "uses" "") 0
                  ltac:(vm_compute; left))).
  reflexivity.
Defined.

(** ** The label of a field *)

(** X13.  A field of non-null type is marked twice in the draw.io file:
    its type string already ends in ["!"] and the cell adds another one for
    the required flag, so the label ends in ["!!"]; the mermaid text prints
    the type string as it is, with one ["!"].  A field of any other type
    gets its type string unchanged in both. *)
Theorem required_field_is_marked_twice class i name t :
  Value (fieldCell class i (classField (ast.mkFieldDefinition name (ast.NonNull t))))
    = name +:+ ": " +:+ getTypeString t +:+ "!!" ∧
  mermaidField (classField (ast.mkFieldDefinition name (ast.NonNull t)))
    = "    +" +:+ name +:+ " " +:+ getTypeString t +:+ "!" +:+ nl ∧
  (∀ t', isNonNullType t' = false →
     Value (fieldCell class i (classField (ast.mkFieldDefinition name t')))
       = name +:+ ": " +:+ getTypeString t').
Proof.
  split_and!.
  - cbn [fieldCell classField Value fieldName fieldType fieldIsRequired
         ast.fdName ast.fdType isNonNullType getTypeString].
    rewrite !append_assoc. done.
  - unfold mermaidField.
    cbn [classField fieldName fieldType ast.fdName ast.fdType getTypeString].
    rewrite !append_assoc. done.
  - intros t' Ht'.
    cbn [fieldCell classField Value fieldName fieldType fieldIsRequired
         ast.fdName ast.fdType]. by rewrite Ht'.
Qed.

Lemma required_field_is_marked_twice_witness :
  Value (fieldCell nodeA 0 (classField (ast.mkFieldDefinition "n" (ast.Named "Int"))))
  = "n: Int".
Proof.
  apply (proj2 (proj2 (required_field_is_marked_twice nodeA 0 "n" (ast.Named "Int")))).
  reflexivity.
Defined.

(** ** A single node *)

(** X14.  A diagram of one class, with no scalar, no directive and no
    relation, is left as it is: the one node is compared with itself only,
    is never read (the pointer may even be nil) and never moved, whatever
    its position. *)
Theorem single_node_is_not_moved w p :
  Classes (diagram w) = [p] → Scalars (diagram w) = [] →
  Directives (diagram w) = [] → Relations (diagram w) = [] →
  calculateLayout w = Some w.
Proof.
  intros Hc Hs Hd Hr. rewrite calculateLayout_unfold. cbv zeta.
  rewrite buildAllNodes_spec, Hc, Hs, Hd, Hr.
  cbn [fst snd length seq fmap list_fmap imap app]. rewrite !app_nil_r.
  rewrite repeatN_id.
  - cbn [mbind option_bind]. destruct w as [d h [f c]]. unfold skip. cbn.
    by rewrite Nat.add_0_r.
  - unfold iteration, repulsionPass, attractionPass, repel. cbn [forEach].
    rewrite decide_True by done. done.
Qed.

Lemma single_node_is_not_moved_witness :
  calculateLayout
    (mkWorld (mkDiagram [None] [] [] [] DrawIO 1920%float 1080%float) [] sampleRand)
  = Some (mkWorld (mkDiagram [None] [] [] [] DrawIO 1920%float 1080%float) []
            sampleRand).
Proof. apply (single_node_is_not_moved _ None); reflexivity. Defined.

(** ** The format flag *)

Lemma initialWorld_mermaid formatFlag r :
  formatFlag ≠ "drawio" → initialWorld formatFlag r = initialWorld "mermaid" r.
Proof.
  intros Hf. unfold initialWorld.
  destruct (String.eqb_spec formatFlag "drawio"); done.
Qed.

(** X15.  Any format flag other than ["drawio"], in this exact spelling,
    selects the mermaid output: an unknown or misspelt format is not an
    error, the program prints what it prints for ["mermaid"]. *)
Theorem unknown_format_is_mermaid formatFlag doc r :
  formatFlag ≠ "drawio" → main formatFlag doc r = main "mermaid" doc r.
Proof. intros Hf. unfold main. by rewrite initialWorld_mermaid. Qed.

Lemma unknown_format_is_mermaid_witness :
  main "DrawIO" smallSchema sampleRand = main "mermaid" smallSchema sampleRand.
Proof. apply unknown_format_is_mermaid. discriminate. Defined.

(** ** processInputDefinition *)

Lemma inputFields_spec className doc fields classStr rels :
  fold_left (inputField className doc) fields (classStr, rels) =
  (classStr +:+ String.concat "" (map inputFieldLine fields),
   rels ++ omap (inputFieldRelation className doc) fields).
Proof.
  revert classStr rels. induction fields as [|field fields IH]; intros classStr rels.
  - cbn. by rewrite append_nil_r, app_nil_r.
  - cbn [fold_left]. unfold inputField at 2. rewrite IH.
    cbn [map omap list_omap]. unfold inputFieldRelation at 2, inputFieldLine at 2.
    assert (∀ s l, String.concat "" (s :: l) = s +:+ String.concat "" l) as Hcat.
    { intros s [|s' l]; cbn; [by rewrite append_nil_r | done]. }
    rewrite Hcat, !append_assoc. f_equal.
    destruct (_ || _); [by rewrite <- app_assoc | done].
Qed.

(** X16.  [processInputDefinition] only appends: the nodes and relations
    of the diagram stay, in place; one node is added, made of the header
    with the [<<input>>] mark, one line per field in order and the closing
    brace, and one relation per field whose type passes the test for an
    object or an input type. *)
Theorem processInputDefinition_appends name fields diagram doc :
  processInputDefinition name fields diagram doc =
  mkMermaidDiagram
    (nodes diagram ++
       ["class " +:+ name +:+ " {" +:+ nl +:+ "    <<input>>"
        +:+ String.concat "" (map inputFieldLine fields) +:+ nl +:+ "}"])
    (relations diagram ++ omap (inputFieldRelation name doc) fields).
Proof.
  unfold processInputDefinition. rewrite inputFields_spec.
  rewrite !append_assoc. done.
Qed.

(** ** Which relations dangle *)

Lemma lastNamed_found h s l :
  lastNamed h s l ≠ None ↔ Some s ∈ ((λ p, Name <$> deref h p) <$> l).
Proof.
  rewrite list_elem_of_fmap. split.
  - intros Hne. destruct (lastNamed h s l) as [a|] eqn:E; [|done].
    unfold lastNamed in E.
    destruct (last (filter (λ p, Name <$> deref h p = Some s) l)) as [q|] eqn:El;
      [|done].
    apply last_Some_elem_of, list_elem_of_filter in El as [Hq Hin].
    exists q. by split.
  - intros (p & Hp & Hin) Hnone.
    destruct (deref h p) as [n|] eqn:Hn; [|done]. injection Hp as Hp.
    by destruct (proj1 (lastNamed_None h s l) Hnone p n Hin Hn).
Qed.

Lemma deref_seq (h : Heap) :
  (deref h <$> (Some <$> seq 0 (length h))) = Some <$> h.
Proof.
  apply list_eq. intros i. rewrite !list_lookup_fmap.
  destruct (decide (i < length h)) as [Hi|Hi].
  - rewrite lookup_seq_lt by done. cbn.
    destruct (lookup_lt_is_Some_2 h i Hi) as [n Hn]. by rewrite Hn.
  - rewrite lookup_seq_ge by lia. cbn. by rewrite lookup_ge_None_2 by lia.
Qed.

(** The working node set of the first layout of a parsed schema: every
    cell of the heap once, in order, under the names [nodeNames]. *)
Lemma working_set_names formatFlag doc r :
  (λ p, Name <$> deref
          (buildAllNodes (diagram (worldOf formatFlag doc r))
             (heap (worldOf formatFlag doc r)) (rand (worldOf formatFlag doc r))).1.2 p)
    <$> (buildAllNodes (diagram (worldOf formatFlag doc r))
           (heap (worldOf formatFlag doc r)) (rand (worldOf formatFlag doc r))).1.1
  = Some <$> nodeNames doc.
Proof.
  rewrite worldOf_closed, buildAllNodes_spec.
  cbn [fst snd diagram heap rand Classes Scalars Directives].
  set (cs := omap classOf (ast.Definitions doc)).
  set (ss := omap scalarOf (ast.Definitions doc)).
  set (ds := omap directiveOf (ast.Definitions doc)).
  set (h0 := cs ++ _ ++ _).
  assert (length h0 = length cs + length ss + length ds) as Hlen.
  { subst h0. rewrite !length_app, !length_imap. lia. }
  assert ((Some <$> seq 0 (length cs)) ++ (Some <$> seq (length cs) (length ss))
            ++ (Some <$> seq (length cs + length ss) (length ds))
          = Some <$> seq 0 (length h0)) as ->.
  { rewrite Hlen, <- !fmap_app. f_equal.
    rewrite <- Nat.add_assoc, !seq_app. done. }
  trans (fmap Name <$> (deref h0 <$> (Some <$> seq 0 (length h0)))).
  { apply list_eq. intros i. rewrite !list_lookup_fmap.
    by destruct (seq 0 (length h0) !! i). }
  rewrite deref_seq.
  trans (Some <$> (Name <$> h0)).
  { apply list_eq. intros i. rewrite !list_lookup_fmap. by destruct (h0 !! i). }
  f_equal. unfold nodeNames. fold cs ss ds. subst h0.
  rewrite !fmap_app. f_equal. f_equal.
  - apply list_eq. intros i. rewrite !list_lookup_fmap, list_lookup_imap.
    by destruct (ss !! i).
  - apply list_eq. intros i. rewrite !list_lookup_fmap, list_lookup_imap.
    by destruct (ds !! i).
Qed.

(** X17.  In the first layout of a parsed schema a relation keeps both
    ends exactly when both names are among the node names: the object
    types, the scalars, and the directives with their at sign.  A relation
    to anything else (an input object, an enum, an interface, a union, a
    type the schema does not define) dangles and is skipped. *)
Theorem relation_resolves_iff_named formatFlag doc r rel :
  resolves
    (buildAllNodes (diagram (worldOf formatFlag doc r))
       (heap (worldOf formatFlag doc r)) (rand (worldOf formatFlag doc r))).1.2
    (buildAllNodes (diagram (worldOf formatFlag doc r))
       (heap (worldOf formatFlag doc r)) (rand (worldOf formatFlag doc r))).1.1
    rel = true
  ↔ From rel ∈ nodeNames doc ∧ To rel ∈ nodeNames doc.
Proof.
  pose proof (working_set_names formatFlag doc r) as Hn.
  destruct (buildAllNodes _ _ _) as [[l h0] r'] eqn:E.
  pose proof (buildAllNodes_valid _ _ _ _ _ _ E (worldOf_wellFormed formatFlag doc r)) as Hl.
  cbn [fst snd] in *. unfold resolves. rewrite (findEnds_lastNamed h0 rel l Hl).
  assert (∀ s, lastNamed h0 s l ≠ None ↔ s ∈ nodeNames doc) as Hs.
  { intros s. rewrite lastNamed_found, Hn, list_elem_of_fmap. split.
    - by intros (s' & [= ->] & Hin).
    - intros Hin. by exists s. }
  rewrite <- !Hs.
  destruct (lastNamed h0 (From rel) l), (lastNamed h0 (To rel) l);
    (split; [intros H; by try discriminate H | intros [H1 H2]; congruence]).
Qed.

Lemma relation_resolves_iff_named_witness :
  resolves
    (buildAllNodes (diagram (worldOf "drawio" mixedSchema sampleRand))
       (heap (worldOf "drawio" mixedSchema sampleRand))
       (rand (worldOf "drawio" mixedSchema sampleRand))).1.2
    (buildAllNodes (diagram (worldOf "drawio" mixedSchema sampleRand))
       (heap (worldOf "drawio" mixedSchema sampleRand))
       (rand (worldOf "drawio" mixedSchema sampleRand))).1.1
    (mkRelation "A" "In" "uses" "") = false.
Proof.
  apply not_true_is_false. intros H.
  apply (relation_resolves_iff_named "drawio" mixedSchema sampleRand) in H as [_ H].
  cbn in H. rewrite !elem_of_cons in H.
  destruct H as [H|[H|H]]; [discriminate H..|by apply not_elem_of_nil in H].
Defined.

(** ** The mermaid text of a schema *)

Lemma concat_cons (s : string) (l : list string) :
  String.concat "" (s :: l) = s +:+ String.concat "" l.
Proof. destruct l; cbn; [by rewrite append_nil_r | done]. Qed.

Lemma mermaidClasses_text h ps ns out :
  deref h <$> ps = Some <$> ns →
  forEach (mermaidClass h) ps out
  = Some (out +:+ String.concat "" (map mermaidClassText ns)).
Proof.
  revert ns out. induction ps as [|p ps IH]; intros [|n ns] out; try done.
  - intros _. cbn. by rewrite append_nil_r.
  - cbn [fmap list_fmap]. intros [= Hp Hps]. cbn [forEach].
    assert (mermaidClass h p out = Some (out +:+ mermaidClassText n)) as ->.
    { unfold mermaidClass, mermaidClassText. rewrite Hp. done. }
    cbn [mbind option_bind]. rewrite (IH ns) by done.
    cbn [map]. by rewrite concat_cons, !append_assoc.
Qed.

(** X18.  The mermaid text of a parsed schema, in closed form: the line
    [classDiagram], then the directives, then the scalars, then the object
    types, then the relations, each group in the order of the document,
    however the definitions are interleaved there.  Nothing is printed for
    a definition of another kind. *)
Theorem mermaid_text_of_a_schema formatFlag doc r :
  formatFlag ≠ "drawio" →
  main formatFlag doc r =
  Some (Text ("classDiagram" +:+ nl
              +:+ String.concat ""
                    (map mermaidDirective (omap directiveOf (ast.Definitions doc)))
              +:+ String.concat ""
                    (map mermaidScalar (omap scalarOf (ast.Definitions doc)))
              +:+ String.concat ""
                    (map mermaidClassText (omap classOf (ast.Definitions doc)))
              +:+ String.concat ""
                    (map mermaidRelation
                       (concat (map (relationsOf doc) (ast.Definitions doc))))),
        worldOf formatFlag doc r).
Proof.
  intros Hf. unfold main. fold (worldOf formatFlag doc r).
  rewrite outputDiagram_mermaid; last first.
  { unfold worldOf. rewrite processSchema_format. unfold initialWorld.
    destruct (String.eqb_spec formatFlag "drawio"); done. }
  rewrite (mermaidClasses_text _ _ (heap (worldOf formatFlag doc r))); last first.
  { rewrite worldOf_closed. cbn [diagram heap Classes]. apply deref_seq. }
  cbn [mbind option_bind]. rewrite worldOf_closed at 1 2 3 4.
  cbn [diagram heap Directives Scalars Relations]. rewrite !append_assoc. done.
Qed.

Lemma mermaid_text_of_a_schema_witness :
  main "mermaid" mixedSchema sampleRand =
  Some (Text ("classDiagram" +:+ nl
              +:+ "class S {" +:+ nl +:+ "    <<scalar>>" +:+ nl +:+ "}" +:+ nl
              +:+ "class A {" +:+ nl +:+ "    +i In" +:+ nl +:+ "    +n Int!" +:+ nl
              +:+ "}" +:+ nl
              +:+ "A --> In : uses" +:+ nl),
        worldOf "mermaid" mixedSchema sampleRand).
Proof. apply (mermaid_text_of_a_schema "mermaid" mixedSchema sampleRand). discriminate. Defined.

(** ** The forces as scaled unit vectors *)







(** ** What the two passes write *)









Example repel_sample :
  cPosition <$> (repel 10 (Some 0) (Some 1) sampleHeap ≫= (.!! 0))
  = Some (mkPosition (-12) (-16)).
Proof. vm_compute. reflexivity. Qed.

Example attract_sample :
  (λ h : Heap, map cPosition h) <$>
    attract 10 [Some 0; Some 1] (mkRelation "A" "B" "uses" "") sampleHeap
  = Some [mkPosition 1.5 2; mkPosition 1.5 2].
Proof. vm_compute. reflexivity. Qed.
